(** * Stream-mongo: the resumable change-stream consumer of [app.js]

    A shallow embedding of [src/app.js] as an event-loop state machine.
    The JavaScript program registers handlers on a Mongoose change stream,
    on a timer and on two process signals; every handler runs to its next
    [await] without interruption.  One transition of the machine below is
    one such uninterrupted run, triggered by an event of the environment
    (the store, the clock, the operating system).  What the program asks of
    its collaborators ([console], [MessageModel.watch], [changeStream.close],
    [setTimeout], [mongoose.disconnect], [process.exit]) is recorded as the
    list of actions of the transition. *)

From stdpp Require Import gmap strings list fin_maps.
From Stdlib Require Import ZArith.

Local Open Scope string_scope.
Local Open Scope list_scope.
Local Open Scope nat_scope.

(** ** Values *)

(** The resume token of a change event: the document MongoDB puts in the
    event's [_id]. *)
Record resume_token := ResumeToken { _data : string }.

(** A MongoDB error as the handlers read it: [error.code],
    [error.codeName] (both absent on driver-side errors), [error.message]. *)
Record error := MkError {
  code : option Z;
  codeName : option string;
  message : string
}.

(** The JavaScript values the program handles. *)
#[local] Set Warnings "-register-all".
Inductive jsval :=
| JNull
| JUndefined
| JBool (b : bool)
| JNum (z : Z)
| JStr (s : string)
| JTok (t : resume_token)
| JErr (e : error)
| JArr (items : list jsval)
| JObj (fields : list (string * jsval)).

(** JavaScript truthiness, as used by [?:] and [||]. *)
Definition truthy (v : jsval) : bool :=
  match v with
  | JNull | JUndefined => false
  | JBool b => b
  | JNum z => negb (Z.eqb z 0)
  | JStr s => negb (String.eqb s EmptyString)
  | JTok _ | JErr _ | JArr _ | JObj _ => true
  end.

(** [a || b] *)
Definition js_or (a b : jsval) : jsval := if truthy a then a else b.

Definition opt_num (o : option Z) : jsval :=
  match o with Some z => JNum z | None => JUndefined end.

(** A change event: the fields the [change] handler reads. *)
Record change := MkChange {
  operationType : string;
  fullDocument : jsval;
  _id : resume_token
}.

Inductive signal := SIGINT | SIGTERM.

Definition signal_name (sg : signal) : string :=
  match sg with SIGINT => "SIGINT" | SIGTERM => "SIGTERM" end.

(** ** Configuration (lines 5-6, 25, 64) *)

Definition uri : string :=
  "mongodb://localhost:27017/mongooseChangeStreamTestDb?replicaSet=rs0".
Definition collectionNameForModel : string := "MongooseResumableMessage".

Definition pipeline : jsval :=
  JArr [JObj [("$match", JObj [("operationType", JStr "insert")])]].

(** The delay of [setTimeout(setupChangeStream, 5000)], in milliseconds. *)
Definition RETRY_DELAY : Z := 5000%Z.

(** ** Actions on the collaborators *)

Inductive level := LLog | LWarn | LError.

(** A template literal is recorded as the list of its parts. *)
Inductive action :=
| Console (lvl : level) (args : list jsval)
| Connect (u : string)
| Watch (p : jsval) (opts : gmap string jsval)
| CloseStream (sid : nat)
| SetTimeout (delay : Z)
| Disconnect
| Exit (status : Z).

(** ** Program state *)

(** A change stream object as the program and the store see it:
    [closed] is the property the handlers test; [errored] and
    [closeEmitted] record that the stream has emitted ['error'], resp.
    ['close']. *)
Record stream := MkStream {
  closed : bool;
  errored : bool;
  closeEmitted : bool
}.

Definition fresh_stream : stream := MkStream false false false.

(** Where [runMongooseResumableDemo] is suspended. *)
Inductive main_state :=
| MainConnecting                 (* await mongoose.connect(uri) *)
| MainWaiting (cur : nat)        (* await new Promise(() => {}) *)
| MainClosing (cur : nat)        (* finally: await currentChangeStream.close() *)
| MainDisconnecting              (* finally: await mongoose.disconnect() *)
| MainDone.

Record state := MkState {
  lastResumeToken : jsval;     (* the module-level variable of line 20 *)
  streams : list stream;       (* every stream MessageModel.watch returned *)
  closing : list nat;          (* error handlers suspended at await close() *)
  timers : list Z;             (* due times of pending setupChangeStream timers *)
  now : Z;                     (* the clock, in milliseconds *)
  main : main_state;
  cleanups : nat;              (* cleanup calls suspended at await disconnect() *)
  exited : bool                (* process.exit has been called *)
}.

Definition set_token (v : jsval) (s : state) : state :=
  MkState v (streams s) (closing s) (timers s) (now s) (main s) (cleanups s) (exited s).
Definition set_streams (l : list stream) (s : state) : state :=
  MkState (lastResumeToken s) l (closing s) (timers s) (now s) (main s) (cleanups s) (exited s).
Definition set_closing (l : list nat) (s : state) : state :=
  MkState (lastResumeToken s) (streams s) l (timers s) (now s) (main s) (cleanups s) (exited s).
Definition set_timers (l : list Z) (s : state) : state :=
  MkState (lastResumeToken s) (streams s) (closing s) l (now s) (main s) (cleanups s) (exited s).
Definition set_now (t : Z) (s : state) : state :=
  MkState (lastResumeToken s) (streams s) (closing s) (timers s) t (main s) (cleanups s) (exited s).
Definition set_main (m : main_state) (s : state) : state :=
  MkState (lastResumeToken s) (streams s) (closing s) (timers s) (now s) m (cleanups s) (exited s).
Definition set_cleanups (n : nat) (s : state) : state :=
  MkState (lastResumeToken s) (streams s) (closing s) (timers s) (now s) (main s) n (exited s).
Definition set_exited (b : bool) (s : state) : state :=
  MkState (lastResumeToken s) (streams s) (closing s) (timers s) (now s) (main s) (cleanups s) b.

(** The program right after [runMongooseResumableDemo()] has been called
    and is suspended at [await mongoose.connect(uri)] (line 82), having
    performed [init_actions]. *)
Definition init : state :=
  MkState JNull [] [] [] 0%Z MainConnecting 0%nat false.

Definition init_actions : list action := [Connect uri].

(** ** The handlers *)

(** Line 26: [lastResumeToken ? { resumeAfter: lastResumeToken } : {}]. *)
Definition setup_options (tok : jsval) : gmap string jsval :=
  if truthy tok then {[ "resumeAfter" := tok ]} else ∅.

(** [setupChangeStream] (lines 22-76).  [MessageModel.watch] returns the
    stream object at once; the three handlers are the functions below.
    The result is the new state, the identity of the stream returned and
    the actions performed. *)
Definition setupChangeStream (s : state) : state * nat * list action :=
  let tok := lastResumeToken s in
  let sid := length (streams s) in
  (set_streams (streams s ++ [fresh_stream]) s, sid,
   [ Console LLog [JStr "Attempting to set up change stream. Resuming after token: ";
                   js_or tok (JStr "None (starting fresh)")];
     Watch pipeline (setup_options tok);
     Console LLog [JStr "Watching for new inserts in collection for model ";
                   JStr collectionNameForModel; JStr "..."] ]).

(** What the ['change'] handler prints for [c] (lines 31-33, 36-37); the
    fourth line prints the variable just assigned. *)
Definition change_log (c : change) : list action :=
  [ Console LLog [JStr "\n--- New Document Inserted (Resumable)! ---"];
    Console LLog [JStr "Operation Type:"; JStr (operationType c)];
    Console LLog [JStr "Full Document:"; fullDocument c];
    Console LLog [JStr "Updated lastResumeToken to:"; JTok (_id c)];
    Console LLog [JStr "--------------------------------------------"] ].

(** The ['change'] handler (lines 30-38): three prints, the assignment
    [lastResumeToken = change._id] of line 35, two prints. *)
Definition on_change (s : state) (c : change) : state * list action :=
  (set_token (JTok (_id c)) s, change_log c).

(** Line 53: [error.codeName === 'ChangeStreamHistoryLost']. *)
Definition is_history_lost (e : error) : bool :=
  match codeName e with
  | Some n => String.eqb n "ChangeStreamHistoryLost"
  | None => false
  end.

(** The end of the ['error'] handler (lines 63-65), reached either at once
    or when the awaited [close()] has settled. *)
Definition schedule_retry (s : state) : state * list action :=
  (set_timers (timers s ++ [(now s + RETRY_DELAY)%Z]) s,
   [ SetTimeout RETRY_DELAY;
     Console LError [JStr "------------------------------------"] ]).

(** The ['error'] handler up to its [await] (lines 40-62). *)
Definition on_error (s : state) (sid : nat) (st : stream) (e : error)
  : state * list action :=
  let head :=
    [ Console LError [JStr "\n--- Mongoose Change Stream Error ---"];
      Console LError [JStr "Error Code:"; opt_num (code e)];
      Console LError [JStr "Error Message:"; JStr (message e)] ] in
  let '(s1, branch) :=
    if is_history_lost e
    then (set_token JNull s,
          [Console LWarn [JStr "Change stream history lost (oplog rolled over). Restarting stream from scratch."]])
    else (s, [Console LWarn [JStr "Attempting to re-establish change stream after error..."]]) in
  if negb (closed st)
  then
    (set_closing (closing s1 ++ [sid])
       (set_streams (<[sid := MkStream true true (closeEmitted st)]> (streams s1)) s1),
     head ++ branch ++ [CloseStream sid])
  else
    let '(s2, tail) :=
      schedule_retry
        (set_streams (<[sid := MkStream true true (closeEmitted st)]> (streams s1)) s1) in
    (s2, head ++ branch ++ tail).

(** The ['error'] handler after [await changeStream.close().catch(...)]
    (lines 61-65); [r] is the rejection of [close()], if any. *)
Definition on_error_resume (s : state) (r : option error) : state * list action :=
  let caught :=
    match r with
    | Some closeErr => [Console LError [JStr "Error closing errored stream:"; JErr closeErr]]
    | None => []
    end in
  let '(s1, tail) := schedule_retry s in
  (s1, caught ++ tail).

(** The ['close'] handler (lines 68-72). *)
Definition on_close : list action :=
  [ Console LLog [JStr "\n--- Mongoose Change Stream Closed (will attempt to re-establish if due to error) ---"] ].

(** [mongoose.connection.name]: the database named in [uri]. *)
Definition connection_name : string := "mongooseChangeStreamTestDb".

(** [MessageModel.collection.name]: the collection Mongoose derives from
    the model name. *)
Definition collection_name : string := "mongooseresumablemessages".

(** The double quote character, which the text of line 94 contains. *)
Definition dq : string := String (Ascii.ascii_of_nat 34) EmptyString.

(** Lines 87-95 of [runMongooseResumableDemo]. *)
Definition demo_instructions : list action :=
  [ Console LLog [JStr "\nTo test resumability:"];
    Console LLog [JStr "1. Insert some data."];
    Console LLog [JStr "2. Stop the MongoDB primary node (or simulate a network partition)."];
    Console LLog [JStr "3. Observe error and reconnection attempt."];
    Console LLog [JStr "4. Restart the MongoDB primary node."];
    Console LLog [JStr "5. Insert more data after the stream re-establishes."];
    Console LLog [JStr "\nExample insert (Mongo Shell): use "; JStr connection_name];
    Console LLog [JStr "db."; JStr collection_name;
                  JStr ".insertOne({ message: "; JStr dq; JStr "Test Resumable"; JStr dq;
                  JStr ", sequence: 1, sender: "; JStr dq; JStr "Dev"; JStr dq;
                  JStr ", timestamp: new Date() })"];
    Console LLog [JStr "\nPress Ctrl+C to stop the listener."] ].

(** The second half of the [finally] block (lines 107-108). *)
Definition finally_disconnect (s : state) : state * list action :=
  (set_main MainDisconnecting s,
   [ Console LLog [JStr "Closing Mongoose connection..."]; Disconnect ]).

(** The [finally] block up to its first [await] (lines 101-108), for the
    value [cur] of [currentChangeStream]. *)
Definition finally_block (s : state) (cur : option nat) : state * list action :=
  let opening := [Console LLog [JStr "\nInitiating shutdown process..."]] in
  let active :=
    match cur with
    | Some sid =>
        match streams s !! sid with
        | Some st => if negb (closed st) then Some (sid, st) else None
        | None => None
        end
    | None => None
    end in
  match active with
  | Some (sid, st) =>
      (set_main (MainClosing sid)
         (set_streams (<[sid := MkStream true (errored st) (closeEmitted st)]> (streams s)) s),
       opening ++ [Console LLog [JStr "Closing active change stream..."]; CloseStream sid])
  | None =>
      let '(s1, tail) := finally_disconnect s in
      (s1, opening ++ tail)
  end.

(** [cleanup] up to its [await] (lines 114-117). *)
Definition cleanup (s : state) (sg : signal) : state * list action :=
  (set_cleanups (S (cleanups s)) s,
   [ Console LLog [JStr "\nReceived "; JStr (signal_name sg);
                   JStr ". Forcing exit for demo simplicity, but ensuring Mongoose disconnects."];
     Disconnect ]).

(** [cleanup] after [await mongoose.disconnect().catch(...)] (lines 117-118). *)
Definition cleanup_resume (s : state) (r : option error) : state * list action :=
  let caught :=
    match r with
    | Some err => [Console LError [JStr "Error during Mongoose disconnect on shutdown signal:"; JErr err]]
    | None => []
    end in
  (set_exited true (set_cleanups (pred (cleanups s)) s), caught ++ [Exit 0%Z]).

(** The error handler suspended on stream [sid] leaves the list of
    suspended handlers; [None] when no handler awaits that stream. *)
Fixpoint remove_pending (sid : nat) (l : list nat) : option (list nat) :=
  match l with
  | [] => None
  | x :: rest =>
      if Nat.eqb sid x then Some rest
      else match remove_pending sid rest with
           | Some rest' => Some (x :: rest')
           | None => None
           end
  end.

(** ** Events of the environment *)

Inductive event :=
| EvConnected                                (* mongoose.connect resolved *)
| EvConnectFailed (err : error)              (* mongoose.connect rejected *)
| EvChange (sid : nat) (c : change)          (* the stream emits 'change' *)
| EvError (sid : nat) (e : error)            (* the stream emits 'error' *)
| EvClose (sid : nat)                        (* the stream emits 'close' *)
| EvCloseDone (sid : nat) (r : option error) (* close() of the error handler settled *)
| EvTick (d : N)                             (* d milliseconds pass *)
| EvTimer (k : nat)                          (* the k-th pending timer fires *)
| EvSignal (sg : signal)                     (* SIGINT or SIGTERM *)
| EvDisconnected (r : option error)          (* disconnect() of cleanup settled *)
| EvMainCloseDone (r : option error)         (* close() of the finally block settled *)
| EvMainDisconnected (r : option error).     (* disconnect() of the finally block settled *)

(** One run of a handler.  [None] when the event cannot occur in [s]:
    nothing runs after [process.exit]; a stream emits ['change'] only while
    it is neither closed nor failed, ['error'] at most once and ['close'] at
    most once; a timer fires no earlier than its due time; a promise settles
    only while something awaits it.  A stream's [closed] becomes true when
    [close()] is called on it and when it emits ['close']. *)
Definition step (s : state) (e : event) : option (state * list action) :=
  if exited s then None else
  match e with
  | EvConnected =>
      match main s with
      | MainConnecting =>
          let '(s1, sid, acts) := setupChangeStream s in
          Some (set_main (MainWaiting sid) s1,
                [Console LLog [JStr "Successfully connected to MongoDB via Mongoose."]]
                ++ acts ++ demo_instructions)
      | _ => None
      end
  | EvConnectFailed err =>
      match main s with
      | MainConnecting =>
          let '(s1, acts) := finally_block s None in
          Some (s1,
                [Console LError [JStr "An error occurred during the Mongoose resumable demo:"; JErr err]]
                ++ acts)
      | _ => None
      end
  | EvChange sid c =>
      match streams s !! sid with
      | Some st =>
          if negb (closed st) && negb (errored st) then Some (on_change s c) else None
      | None => None
      end
  | EvError sid err =>
      match streams s !! sid with
      | Some st => if negb (errored st) then Some (on_error s sid st err) else None
      | None => None
      end
  | EvClose sid =>
      match streams s !! sid with
      | Some st =>
          if negb (closeEmitted st)
          then Some (set_streams (<[sid := MkStream true (errored st) true]> (streams s)) s,
                     on_close)
          else None
      | None => None
      end
  | EvCloseDone sid r =>
      match remove_pending sid (closing s) with
      | Some rest => Some (on_error_resume (set_closing rest s) r)
      | None => None
      end
  | EvTick d => Some (set_now (now s + Z.of_N d)%Z s, [])
  | EvTimer k =>
      match timers s !! k with
      | Some due =>
          if Z.leb due (now s)
          then let '(s1, _, acts) := setupChangeStream (set_timers (delete k (timers s)) s) in
               Some (s1, acts)
          else None
      | None => None
      end
  | EvSignal sg => Some (cleanup s sg)
  | EvDisconnected r =>
      match cleanups s with
      | O => None
      | S _ => Some (cleanup_resume s r)
      end
  | EvMainCloseDone r =>
      match main s with
      | MainClosing _ =>
          let caught :=
            match r with
            | Some e => [Console LError [JStr "Error closing change stream on exit:"; JErr e]]
            | None => []
            end in
          let '(s1, tail) := finally_disconnect s in
          Some (s1, caught ++ tail)
      | _ => None
      end
  | EvMainDisconnected r =>
      match main s with
      | MainDisconnecting =>
          Some (set_main MainDone s,
                match r with
                | None => [Console LLog [JStr "Mongoose connection closed."]]
                | Some e => [Console LError [JErr e]]
                end)
      | _ => None
      end
  end.

(** A run of the event loop: the handlers of [evs], one after the other. *)
Fixpoint run (s : state) (evs : list event) : option (state * list action) :=
  match evs with
  | [] => Some (s, [])
  | e :: rest =>
      match step s e with
      | Some (s1, a1) =>
          match run s1 rest with
          | Some (s2, a2) => Some (s2, a1 ++ a2)
          | None => None
          end
      | None => None
      end
  end.

(** The states the program can be in. *)
Definition reachable (s : state) : Prop :=
  ∃ evs acts, run init evs = Some (s, acts).

(** ** Reading a trace of actions *)

Definition watch_options (a : action) : option (gmap string jsval) :=
  match a with Watch _ o => Some o | _ => None end.

(** The options of the subscriptions issued, in order. *)
Definition watches (acts : list action) : list (gmap string jsval) :=
  omap watch_options acts.

(** The options of the next subscription issued, if there is one. *)
Definition first_watch (acts : list action) : option (gmap string jsval) :=
  head (watches acts).

Definition is_warn (a : action) : bool :=
  match a with Console LWarn _ => true | _ => false end.

(** How many [console.warn] calls a trace holds. *)
Definition count_warn (acts : list action) : nat := length (filter is_warn acts).

Definition is_close_call (a : action) : bool :=
  match a with CloseStream _ => true | _ => false end.

Definition is_timeout (a : action) : bool :=
  match a with SetTimeout _ => true | _ => false end.

Definition is_error_event (e : event) : bool :=
  match e with EvError _ _ => true | _ => false end.

(** ** Counting streams *)

(** Streams that have not failed: each may still run the error handler. *)
Fixpoint live_count (l : list stream) : nat :=
  match l with
  | [] => 0
  | st :: rest => (if errored st then 0 else 1) + live_count rest
  end.

(** Streams whose [closed] property is false: the open sessions. *)
Fixpoint open_count (l : list stream) : nat :=
  match l with
  | [] => 0
  | st :: rest => (if closed st then 0 else 1) + open_count rest
  end.

(** A stream that has failed has been closed by the error handler. *)
Definition settled (st : stream) : Prop := errored st = true → closed st = true.

(** Everything that will, or may yet, call [setupChangeStream]: the pending
    [connect], the pending timers, the error handlers awaiting [close()],
    and the streams that have not failed. *)
Definition potential (s : state) : nat :=
  (match main s with MainConnecting => 1 | _ => 0 end)
  + length (timers s) + length (closing s) + live_count (streams s).

Definition is_token (v : jsval) : Prop := v = JNull ∨ ∃ t, v = JTok t.

Record Inv (s : state) : Prop := MkInv {
  inv_potential : potential s ≤ 1;
  inv_settled : Forall settled (streams s);
  inv_token : is_token (lastResumeToken s);
  inv_main : ∀ c, main s ≠ MainClosing c
}.

(** The retry is pending on a single timer due at [due], and nothing else
    can subscribe. *)
Definition waiting (due : Z) (s : state) : Prop :=
  timers s = [due] ∧ closing s = [] ∧ live_count (streams s) = 0
  ∧ main s ≠ MainConnecting.

(** ** The classification of the specification *)

Inductive Disposition := Transient | HistoryLost | Fatal.

(** The error codes the comment of lines 47-48 lists as resumable. *)
Definition resumable_codes : list Z :=
  [6; 7; 89; 91; 189; 262; 13436; 13435]%Z.

(** The specification's [classify], in its words: history loss by the
    structured code name, connectivity failures by their code, everything
    else fatal.  The program itself only tests [is_history_lost]. *)
Definition spec_classify (e : error) : Disposition :=
  if is_history_lost e then HistoryLost
  else match code e with
       | Some c => if existsb (Z.eqb c) resumable_codes then Transient else Fatal
       | None => Fatal
       end.

(** ** Sample data *)

Definition tokA : resume_token := ResumeToken "8264A1".
Definition tokB : resume_token := ResumeToken "8264B2".
Definition tokC : resume_token := ResumeToken "8264C3".

Definition doc (n : Z) : jsval :=
  JObj [("message", JStr "Test Resumable"); ("sequence", JNum n); ("sender", JStr "Dev")].

Definition chA : change := MkChange "insert" (doc 1) tokA.
Definition chB : change := MkChange "insert" (doc 2) tokB.
Definition chC : change := MkChange "insert" (doc 3) tokC.

Definition err_unreachable : error :=
  MkError (Some 6%Z) (Some "HostUnreachable") "connection refused".
Definition err_history_lost : error :=
  MkError (Some 286%Z) (Some "ChangeStreamHistoryLost") "resume point no longer in the oplog".
Definition err_unauthorized : error :=
  MkError (Some 13%Z) (Some "Unauthorized") "not authorized to execute command".

(** The program streaming on its first stream, checkpoint at A. *)
Definition st_streamingA : state :=
  MkState (JTok tokA) [fresh_stream] [] [] 0%Z (MainWaiting 0) 0 false.

(** The same right after connecting, nothing delivered yet. *)
Definition st_streaming0 : state :=
  MkState JNull [fresh_stream] [] [] 0%Z (MainWaiting 0) 0 false.

(** The error handler of the first stream suspended at [await close()]. *)
Definition st_closingA : state :=
  MkState (JTok tokA) [MkStream true true false] [0] [] 0%Z (MainWaiting 0) 0 false.

(** Five seconds after the retry was scheduled at time 0. *)
Definition st_dueA : state :=
  MkState (JTok tokA) [MkStream true true false] [] [5000%Z] 5000%Z (MainWaiting 0) 0 false.

(** The events that let a failed stream's retry run: the awaited [close()]
    settles if the handler had to close the stream, five seconds pass, the
    timer fires. *)
Definition retry_events (sid : nat) (st : stream) : list event :=
  (if closed st then [] else [EvCloseDone sid None])
  ++ [EvTick 5000; EvTimer 0].

(** ** Reading a run of events *)

Definition is_signal_event (e : event) : bool :=
  match e with EvSignal _ => true | _ => false end.

Definition is_history_lost_event (e : event) : bool :=
  match e with EvError _ err => is_history_lost err | _ => false end.

(** How many times a stream emitted ['error'] in a run. *)
Definition count_errors (evs : list event) : nat :=
  length (filter is_error_event evs).

(** The two assignments to [lastResumeToken] (lines 35 and 55), read as
    the effect of one event on the checkpoint. *)
Definition checkpoint_step (tok : jsval) (e : event) : jsval :=
  match e with
  | EvChange _ c => JTok (_id c)
  | EvError _ err => if is_history_lost err then JNull else tok
  | _ => tok
  end.

Definition checkpoint_after (tok : jsval) (evs : list event) : jsval :=
  foldl checkpoint_step tok evs.

Definition is_exit (a : action) : bool :=
  match a with Exit _ => true | _ => false end.

Definition is_disconnect (a : action) : bool :=
  match a with Disconnect => true | _ => false end.

Definition closes_stream (sid : nat) (a : action) : bool :=
  match a with CloseStream x => Nat.eqb x sid | _ => false end.

(** How many times [close()] was called on the stream [sid]. *)
Definition closes_of (sid : nat) (acts : list action) : nat :=
  length (filter (closes_stream sid) acts).

(** Whether the error handler of stream [sid] may still run: the stream
    has not failed, or does not exist yet. *)
Definition may_still_fail (l : list stream) (sid : nat) : nat :=
  match l !! sid with
  | Some st => if errored st then 0 else 1
  | None => 1
  end.

(** What can still lead to a subscription without a further error. *)
Definition pending (s : state) : nat :=
  (match main s with MainConnecting => 1 | _ => 0 end)
  + length (timers s) + length (closing s).

(** The state of a program whose [connect] was rejected: it never had a
    stream and [runMongooseResumableDemo] is in, or past, its [finally]. *)
Definition never_connected (s : state) : Prop :=
  streams s = [] ∧ timers s = [] ∧ closing s = []
  ∧ lastResumeToken s = JNull
  ∧ (main s = MainDisconnecting ∨ main s = MainDone).

(** No pending timer is due later than the fixed delay from now. *)
Definition timers_near (s : state) : Prop :=
  Forall (λ due, (due ≤ now s + RETRY_DELAY)%Z) (timers s).

(** The error handler of stream [sid] is suspended at [await close()] and
    nothing else can subscribe or set a timer. *)
Definition awaiting_close (sid : nat) (s : state) : Prop :=
  closing s = [sid] ∧ timers s = [] ∧ live_count (streams s) = 0
  ∧ main s ≠ MainConnecting.

(** What [cleanup] prints when [mongoose.disconnect()] is rejected
    (line 117). *)
Definition disconnect_caught (r : option error) : list action :=
  match r with
  | Some err =>
      [Console LError [JStr "Error during Mongoose disconnect on shutdown signal:";
                       JErr err]]
  | None => []
  end.

(** What the [finally] block prints when its [close()] is rejected
    (line 105). *)
Definition final_close_caught (r : option error) : list action :=
  match r with
  | Some e => [Console LError [JStr "Error closing change stream on exit:"; JErr e]]
  | None => []
  end.

(** A rejection of [close()] or [disconnect()] by the driver. *)
Definition err_close : error :=
  MkError None None "cursor already killed".

(** ** Proof steps that recur *)

(** Case analysis on the event of a handler run [H : step s e = Some _]. *)
Ltac step_cases H :=
  match type of H with
  | step ?s ?e = Some _ =>
      unfold step in H;
      destruct (exited s) eqn:?; [discriminate H|];
      destruct e; simpl in H
  end.

(** Membership in a trace written out, decided by looking. *)
Ltac not_in H :=
  apply list_elem_of_In in H; simpl in H; intuition discriminate.

(** ** Basic facts *)

Lemma watches_app a b : watches (a ++ b) = watches a ++ watches b.
Proof. apply omap_app. Qed.

Lemma count_warn_app a b : count_warn (a ++ b) = count_warn a + count_warn b.
Proof. unfold count_warn. by rewrite filter_app, length_app. Qed.

Lemma live_count_app l1 l2 : live_count (l1 ++ l2) = live_count l1 + live_count l2.
Proof. induction l1 as [|st l1 IH]; simpl; [done | rewrite IH; lia]. Qed.

Lemma open_count_app l1 l2 : open_count (l1 ++ l2) = open_count l1 + open_count l2.
Proof. induction l1 as [|st l1 IH]; simpl; [done | rewrite IH; lia]. Qed.

Lemma live_count_fail (l : list stream) i st st' :
  l !! i = Some st → errored st = false → errored st' = true →
  live_count l = S (live_count (<[i := st']> l)).
Proof.
  revert i. induction l as [|x l IH]; intros [|i] Hl Hst Hst'; simpl in *; try done.
  - injection Hl as ->. rewrite Hst, Hst'. done.
  - rewrite (IH i Hl Hst Hst'). destruct (errored x); simpl; lia.
Qed.

Lemma live_count_keep (l : list stream) i st st' :
  l !! i = Some st → errored st' = errored st →
  live_count (<[i := st']> l) = live_count l.
Proof.
  revert i. induction l as [|x l IH]; intros [|i] Hl Hst; simpl in *; try done.
  - injection Hl as ->. by rewrite Hst.
  - by rewrite (IH i Hl Hst).
Qed.

Lemma live_count_zero (l : list stream) i st :
  live_count l = 0 → l !! i = Some st → errored st = true.
Proof.
  revert i. induction l as [|x l IH]; intros [|i] H0 Hl; simpl in *; try done.
  - injection Hl as ->. destruct (errored st); [done | lia].
  - apply (IH i); [destruct (errored x); simpl in *; lia | done].
Qed.

Lemma live_count_pos (l : list stream) i st :
  l !! i = Some st → errored st = false → 1 ≤ live_count l.
Proof.
  intros Hl Hst. destruct (live_count l) eqn:E; [|lia].
  rewrite (live_count_zero l i st E Hl) in Hst. done.
Qed.

(** Under [settled], an open stream has not failed. *)
Lemma open_le_live (l : list stream) :
  Forall settled l → open_count l ≤ live_count l.
Proof.
  induction 1 as [|st l Hst _ IH]; simpl; [done|].
  unfold settled in Hst.
  destruct (errored st), (closed st); simpl; first [lia | by specialize (Hst eq_refl)].
Qed.

Lemma remove_pending_length sid l rest :
  remove_pending sid l = Some rest → length l = S (length rest).
Proof.
  revert rest. induction l as [|x l IH]; intros rest H; simpl in *; [done|].
  destruct (Nat.eqb sid x).
  - by injection H as ->.
  - destruct (remove_pending sid l) as [r|]; [|done].
    injection H as <-. simpl. by rewrite (IH r eq_refl).
Qed.

(** ** The invariant *)

Lemma init_inv : Inv init.
Proof.
  split; simpl.
  - unfold potential; simpl; lia.
  - constructor.
  - by left.
  - done.
Qed.

Lemma step_inv s e s' a : Inv s → step s e = Some (s', a) → Inv s'.
Proof.
  intros [Hp Hs Ht Hm] H. unfold potential in Hp.
  step_cases H.
  - (* connect resolved *)
    destruct (main s) eqn:Hmain; try done. injection H as <- <-.
    split; unfold potential; simpl.
    + rewrite live_count_app; simpl. lia.
    + apply Forall_app; split; [done|]. by apply Forall_singleton.
    + done.
    + done.
  - (* connect rejected *)
    destruct (main s) eqn:Hmain; try done. injection H as <- <-.
    split; unfold potential; simpl; [lia | done..].
  - (* change *)
    destruct (streams s !! sid) as [st|] eqn:Hl; [|done].
    destruct (negb (closed st) && negb (errored st)); [|done].
    injection H as <- <-.
    split; unfold potential; simpl; [lia | done | right; eauto | done].
  - (* error *)
    destruct (streams s !! sid) as [st|] eqn:Hl; [|done].
    destruct (errored st) eqn:Herr; [done|]. simpl in H.
    pose proof (live_count_fail (streams s) sid st
                  (MkStream true true (closeEmitted st)) Hl Herr eq_refl) as Hlc.
    unfold on_error in H.
    destruct (is_history_lost e), (closed st); simpl in H; injection H as <- <-;
      (split; unfold potential; simpl;
       [ rewrite ?length_app; simpl; lia
       | by apply Forall_insert
       | first [done | by left]
       | done ]).
  - (* close *)
    destruct (streams s !! sid) as [st|] eqn:Hl; [|done].
    destruct (closeEmitted st); [done|]. simpl in H. injection H as <- <-.
    split; unfold potential; simpl.
    + rewrite (live_count_keep (streams s) sid st); [lia | done | done].
    + by apply Forall_insert.
    + done.
    + done.
  - (* close() settled *)
    destruct (remove_pending sid (closing s)) as [rest|] eqn:Hr; [|done].
    apply remove_pending_length in Hr.
    injection H as <- <-.
    split; unfold potential; simpl; [rewrite length_app; simpl; lia | done..].
  - (* tick *)
    injection H as <- <-. split; unfold potential; simpl; [lia | done..].
  - (* timer *)
    destruct (timers s !! k) as [due|] eqn:Hk; [|done].
    destruct (Z.leb due (now s)); [|done]. injection H as <- <-.
    split; unfold potential; simpl.
    + rewrite live_count_app, length_delete by eauto; simpl.
      apply lookup_lt_Some in Hk. lia.
    + apply Forall_app; split; [done|]. by apply Forall_singleton.
    + done.
    + done.
  - (* signal *)
    injection H as <- <-. split; unfold potential; simpl; [lia | done..].
  - (* disconnect of cleanup settled *)
    destruct (cleanups s); [done|]. injection H as <- <-.
    split; unfold potential; simpl; [lia | done..].
  - (* close() of finally settled *)
    destruct (main s) eqn:Hmain; try done. by destruct (Hm cur).
  - (* disconnect of finally settled *)
    destruct (main s) eqn:Hmain; try done. injection H as <- <-.
    split; unfold potential; simpl; [lia | done..].
Qed.

Lemma run_inv evs : ∀ s s' a, Inv s → run s evs = Some (s', a) → Inv s'.
Proof.
  induction evs as [|e evs IH]; intros s s' a Hi H; simpl in H.
  - by injection H as <- <-.
  - destruct (step s e) as [[s1 a1]|] eqn:Hstep; [|done].
    destruct (run s1 evs) as [[s2 a2]|] eqn:Hrun; [|done].
    injection H as <- <-. eapply IH; [|done]. by eapply step_inv.
Qed.

Lemma reachable_inv s : reachable s → Inv s.
Proof. intros (evs & acts & H). eapply run_inv; [apply init_inv | done]. Qed.

Lemma run_app evs1 : ∀ evs2 s s1 a1 s2 a2,
  run s evs1 = Some (s1, a1) → run s1 evs2 = Some (s2, a2) →
  run s (evs1 ++ evs2) = Some (s2, a1 ++ a2).
Proof.
  induction evs1 as [|e evs1 IH]; intros evs2 s s1 a1 s2 a2 H1 H2; simpl in *.
  - by injection H1 as <- <-.
  - destruct (step s e) as [[s' a']|]; [|done].
    destruct (run s' evs1) as [[s'' a'']|] eqn:Hr; [|done].
    injection H1 as <- <-.
    rewrite (IH evs2 s' s'' a'' s2 a2 Hr H2). by rewrite app_assoc.
Qed.

Lemma reachable_step s e s' a : reachable s → step s e = Some (s', a) → reachable s'.
Proof.
  intros (evs & acts & H) Hs. exists (evs ++ [e]), (acts ++ (a ++ [])).
  eapply run_app; [done|]. simpl. by rewrite Hs.
Qed.

Lemma reachable_run s evs s' a : reachable s → run s evs = Some (s', a) → reachable s'.
Proof.
  intros (evs0 & acts & H) Hr. exists (evs0 ++ evs), (acts ++ a). by eapply run_app.
Qed.

(** ** What a single handler run can do *)

(** A handler run subscribes at most once, with the options built from the
    checkpoint it finds. *)
Lemma step_watches s e s' a :
  step s e = Some (s', a) →
  watches a = [] ∨ watches a = [setup_options (lastResumeToken s)].
Proof.
  intros H. step_cases H.
  - destruct (main s); try done. injection H as <- <-. by right.
  - destruct (main s); try done. injection H as <- <-. by left.
  - destruct (streams s !! sid) as [st|]; [|done].
    destruct (negb (closed st) && negb (errored st)); [|done].
    injection H as <- <-. by left.
  - destruct (streams s !! sid) as [st|]; [|done].
    destruct (errored st); [done|]. simpl in H. unfold on_error in H.
    destruct (is_history_lost e), (closed st); simpl in H; injection H as <- <-; by left.
  - destruct (streams s !! sid) as [st|]; [|done].
    destruct (closeEmitted st); [done|]. injection H as <- <-. by left.
  - destruct (remove_pending sid (closing s)); [|done].
    injection H as <- <-. destruct r; by left.
  - injection H as <- <-. by left.
  - destruct (timers s !! k); [|done]. destruct (Z.leb _ _); [|done].
    injection H as <- <-. by right.
  - injection H as <- <-. by left.
  - destruct (cleanups s); [done|]. injection H as <- <-. destruct r; by left.
  - destruct (main s); try done. injection H as <- <-. destruct r; by left.
  - destruct (main s); try done. injection H as <- <-. destruct r; by left.
Qed.

(** Only the error handler warns. *)
Lemma step_no_warn s e s' a :
  step s e = Some (s', a) → is_error_event e = false → count_warn a = 0.
Proof.
  intros H He. step_cases H; try done.
  - destruct (main s); try done. by injection H as <- <-.
  - destruct (main s); try done. by injection H as <- <-.
  - destruct (streams s !! sid) as [st|]; [|done].
    destruct (negb (closed st) && negb (errored st)); [|done].
    by injection H as <- <-.
  - destruct (streams s !! sid) as [st|]; [|done].
    destruct (closeEmitted st); [done|]. by injection H as <- <-.
  - destruct (remove_pending sid (closing s)); [|done].
    injection H as <- <-. by destruct r.
  - by injection H as <- <-.
  - destruct (timers s !! k); [|done]. destruct (Z.leb _ _); [|done].
    by injection H as <- <-.
  - by injection H as <- <-.
  - destruct (cleanups s); [done|]. injection H as <- <-. by destruct r.
  - destruct (main s); try done. injection H as <- <-. by destruct r.
  - destruct (main s); try done. injection H as <- <-. by destruct r.
Qed.

Lemma run_no_warn evs : ∀ s s' a,
  run s evs = Some (s', a) → forallb (λ e, negb (is_error_event e)) evs = true →
  count_warn a = 0.
Proof.
  induction evs as [|e evs IH]; intros s s' a H Hn; simpl in *.
  - by injection H as <- <-.
  - destruct (step s e) as [[s1 a1]|] eqn:Hs; [|done].
    destruct (run s1 evs) as [[s2 a2]|] eqn:Hr; [|done].
    injection H as <- <-. apply andb_prop in Hn as [He Hn].
    rewrite count_warn_app, (IH _ _ _ Hr Hn).
    rewrite (step_no_warn _ _ _ _ Hs); [done|]. by destruct (is_error_event e).
Qed.

(** While no stream is live, the checkpoint can only be read: a handler run
    either leaves it alone and keeps every stream failed, or subscribes
    with it. *)
Lemma quiet_step s e s' a :
  live_count (streams s) = 0 → step s e = Some (s', a) →
  (watches a = [] ∧ lastResumeToken s' = lastResumeToken s
   ∧ live_count (streams s') = 0)
  ∨ watches a = [setup_options (lastResumeToken s)].
Proof.
  intros Hq H. step_cases H.
  - destruct (main s); try done. injection H as <- <-. by right.
  - destruct (main s); try done. injection H as <- <-. by left.
  - destruct (streams s !! sid) as [st|] eqn:Hl; [|done].
    rewrite (live_count_zero _ _ _ Hq Hl), andb_false_r in H. done.
  - destruct (streams s !! sid) as [st|] eqn:Hl; [|done].
    rewrite (live_count_zero _ _ _ Hq Hl) in H. done.
  - destruct (streams s !! sid) as [st|] eqn:Hl; [|done].
    destruct (closeEmitted st); [done|]. injection H as <- <-. left.
    simpl. by rewrite (live_count_keep (streams s) sid st).
  - destruct (remove_pending sid (closing s)); [|done].
    injection H as <- <-. left. by destruct r.
  - injection H as <- <-. by left.
  - destruct (timers s !! k); [|done]. destruct (Z.leb _ _); [|done].
    injection H as <- <-. by right.
  - injection H as <- <-. by left.
  - destruct (cleanups s); [done|]. injection H as <- <-. left. by destruct r.
  - destruct (main s); try done. injection H as <- <-. left. by destruct r.
  - destruct (main s); try done. injection H as <- <-. left. by destruct r.
Qed.

Lemma quiet_run evs : ∀ s s' a,
  live_count (streams s) = 0 → run s evs = Some (s', a) →
  (watches a = [] ∧ lastResumeToken s' = lastResumeToken s
   ∧ live_count (streams s') = 0)
  ∨ first_watch a = Some (setup_options (lastResumeToken s)).
Proof.
  induction evs as [|e evs IH]; intros s s' a Hq H; simpl in H.
  - injection H as <- <-. by left.
  - destruct (step s e) as [[s1 a1]|] eqn:Hs; [|done].
    destruct (run s1 evs) as [[s2 a2]|] eqn:Hr; [|done].
    injection H as <- <-. unfold first_watch. rewrite watches_app.
    destruct (quiet_step _ _ _ _ Hq Hs) as [(Hw & Ht & Hq1)|Hw]; rewrite Hw.
    + destruct (IH _ _ _ Hq1 Hr) as [(Hw2 & Ht2 & Hq2)|Hw2].
      * left. rewrite Hw2, Ht2, Ht. done.
      * right. simpl. unfold first_watch in Hw2. by rewrite Hw2, Ht.
    + by right.
Qed.

(** The clock never runs backwards. *)
Lemma step_now_mono s e s' a : step s e = Some (s', a) → (now s ≤ now s')%Z.
Proof.
  intros H. step_cases H.
  - destruct (main s); try done. by injection H as <- <-.
  - destruct (main s); try done. by injection H as <- <-.
  - destruct (streams s !! sid) as [st|]; [|done].
    destruct (negb (closed st) && negb (errored st)); [|done].
    by injection H as <- <-.
  - destruct (streams s !! sid) as [st|]; [|done].
    destruct (errored st); [done|]. simpl in H. unfold on_error in H.
    destruct (is_history_lost e), (closed st); simpl in H; by injection H as <- <-.
  - destruct (streams s !! sid) as [st|]; [|done].
    destruct (closeEmitted st); [done|]. by injection H as <- <-.
  - destruct (remove_pending sid (closing s)); [|done]. by injection H as <- <-.
  - injection H as <- <-. simpl. lia.
  - destruct (timers s !! k); [|done]. destruct (Z.leb _ _); [|done].
    by injection H as <- <-.
  - by injection H as <- <-.
  - destruct (cleanups s); [done|]. by injection H as <- <-.
  - destruct (main s); try done. by injection H as <- <-.
  - destruct (main s); try done. by injection H as <- <-.
Qed.

Lemma run_now_mono evs : ∀ s s' a, run s evs = Some (s', a) → (now s ≤ now s')%Z.
Proof.
  induction evs as [|e evs IH]; intros s s' a H; simpl in H.
  - by injection H as <- <-.
  - destruct (step s e) as [[s1 a1]|] eqn:Hs; [|done].
    destruct (run s1 evs) as [[s2 a2]|] eqn:Hr; [|done].
    injection H as <- <-. apply step_now_mono in Hs. apply IH in Hr. lia.
Qed.

(** ** Waiting for the retry *)

Lemma waiting_step due s e s' a :
  waiting due s → step s e = Some (s', a) →
  (waiting due s' ∧ watches a = []) ∨ (due ≤ now s)%Z.
Proof.
  intros (Ht & Hc & Hq & Hm) H. unfold waiting. step_cases H.
  - destruct (main s); done.
  - destruct (main s); done.
  - destruct (streams s !! sid) as [st|] eqn:Hl; [|done].
    rewrite (live_count_zero _ _ _ Hq Hl), andb_false_r in H. done.
  - destruct (streams s !! sid) as [st|] eqn:Hl; [|done].
    rewrite (live_count_zero _ _ _ Hq Hl) in H. done.
  - destruct (streams s !! sid) as [st|] eqn:Hl; [|done].
    destruct (closeEmitted st); [done|]. injection H as <- <-. left. simpl.
    by rewrite (live_count_keep (streams s) sid st).
  - rewrite Hc in H. done.
  - injection H as <- <-. by left.
  - rewrite Ht in H. destruct k as [|k]; [|done]. simpl in H.
    destruct (Z.leb due (now s)) eqn:Hle; [|done]. right. by apply Z.leb_le.
  - injection H as <- <-. by left.
  - destruct (cleanups s); [done|]. injection H as <- <-. left. by destruct r.
  - destruct (main s) eqn:Hmain; try done. injection H as <- <-. left. by destruct r.
  - destruct (main s) eqn:Hmain; try done. injection H as <- <-. left. by destruct r.
Qed.

Lemma waiting_run due evs : ∀ s s' a,
  waiting due s → run s evs = Some (s', a) →
  waiting due s' ∨ (due ≤ now s')%Z.
Proof.
  induction evs as [|e evs IH]; intros s s' a Hw H; simpl in H.
  - injection H as <- <-. by left.
  - destruct (step s e) as [[s1 a1]|] eqn:Hs; [|done].
    destruct (run s1 evs) as [[s2 a2]|] eqn:Hr; [|done].
    injection H as <- <-.
    destruct (waiting_step _ _ _ _ _ Hw Hs) as [[Hw1 _]|Hd].
    + by eapply IH.
    + right. apply step_now_mono in Hs. apply run_now_mono in Hr. lia.
Qed.

(** A stream that can still fail is the only thing pending. *)
Lemma live_alone s sid st :
  Inv s → streams s !! sid = Some st → errored st = false →
  timers s = [] ∧ closing s = [] ∧ main s ≠ MainConnecting
  ∧ live_count (streams s) = 1.
Proof.
  intros [Hp _ _ _] Hl He. unfold potential in Hp.
  pose proof (live_count_pos _ _ _ Hl He) as Hpos.
  destruct (timers s); [|simpl in Hp; lia].
  destruct (closing s); [|simpl in Hp; lia].
  destruct (main s); simpl in Hp; repeat split; try done; lia.
Qed.

(** A handler that calls [setTimeout] leaves the program waiting on that
    timer alone. *)
Lemma scheduled_waiting s e s' a :
  Inv s → step s e = Some (s', a) → SetTimeout RETRY_DELAY ∈ a →
  waiting (now s + RETRY_DELAY)%Z s'.
Proof.
  intros Hi H Hin. pose proof Hi as [Hp _ _ _]. unfold potential in Hp.
  unfold waiting. step_cases H.
  - destruct (main s); try done. injection H as <- <-. (exfalso; not_in Hin).
  - destruct (main s); try done. injection H as <- <-. (exfalso; not_in Hin).
  - destruct (streams s !! sid) as [st|]; [|done].
    destruct (negb (closed st) && negb (errored st)); [|done].
    injection H as <- <-. (exfalso; not_in Hin).
  - destruct (streams s !! sid) as [st|] eqn:Hl; [|done].
    destruct (errored st) eqn:Herr; [done|]. simpl in H.
    destruct (live_alone s sid st Hi Hl Herr) as (Ht & Hc & Hm & Hlc).
    pose proof (live_count_fail (streams s) sid st
                  (MkStream true true (closeEmitted st)) Hl Herr eq_refl) as Hf.
    unfold on_error in H.
    destruct (is_history_lost e), (closed st); simpl in H; injection H as <- <-;
      simpl; first [ by (exfalso; not_in Hin) | rewrite Ht; repeat split; first [done | lia] ].
  - destruct (streams s !! sid) as [st|]; [|done].
    destruct (closeEmitted st); [done|]. injection H as <- <-. (exfalso; not_in Hin).
  - destruct (remove_pending sid (closing s)) as [rest|] eqn:Hr; [|done].
    apply remove_pending_length in Hr. injection H as <- <-. simpl.
    destruct (timers s); [|simpl in Hp; lia].
    destruct rest; [|simpl in *; lia].
    repeat split; try done; destruct (main s); simpl in *; try done; lia.
  - injection H as <- <-. (exfalso; not_in Hin).
  - destruct (timers s !! k); [|done]. destruct (Z.leb _ _); [|done].
    injection H as <- <-. (exfalso; not_in Hin).
  - injection H as <- <-. (exfalso; not_in Hin).
  - destruct (cleanups s); [done|]. injection H as <- <-. destruct r; (exfalso; not_in Hin).
  - destruct (main s); try done. injection H as <- <-. destruct r; (exfalso; not_in Hin).
  - destruct (main s); try done. injection H as <- <-. destruct r; (exfalso; not_in Hin).
Qed.

(** ** The retry does run *)

(** From a waiting state: five seconds pass, the timer fires, and the
    program subscribes with the options built from its checkpoint. *)
Lemma waiting_fires s :
  exited s = false → waiting (now s + RETRY_DELAY)%Z s →
  ∃ s2 a2, run s [EvTick 5000; EvTimer 0] = Some (s2, a2)
           ∧ watches a2 = [setup_options (lastResumeToken s)].
Proof.
  intros Hex (Ht & _). destruct s as [tok sts cl tm nw mn cu ex]. simpl in *. subst.
  unfold run, step; simpl. unfold RETRY_DELAY.
  replace (nw + 5000 <=? nw + 5000)%Z with true by (symmetry; apply Z.leb_refl).
  simpl. eauto.
Qed.

Lemma retry_runs s sid st e s1 a1 :
  Inv s → streams s !! sid = Some st →
  step s (EvError sid e) = Some (s1, a1) →
  ∃ s2 a2, run s1 (retry_events sid st) = Some (s2, a2)
           ∧ watches a2 = [setup_options (lastResumeToken s1)].
Proof.
  intros Hi Hl H. unfold step in H.
  destruct (exited s) eqn:Hex; [done|]. rewrite Hl in H.
  destruct (errored st) eqn:Herr; [done|]. simpl in H.
  destruct (live_alone s sid st Hi Hl Herr) as (Ht & Hc & Hm & Hlc).
  pose proof (live_count_fail (streams s) sid st
                (MkStream true true (closeEmitted st)) Hl Herr eq_refl) as Hf.
  unfold retry_events. unfold on_error in H.
  destruct (closed st) eqn:Hcl.
  - (* already closed: the timer is set at once *)
    apply waiting_fires.
    + destruct (is_history_lost e); simpl in H; injection H as <- <-; done.
    + replace (now s1) with (now s)
        by (destruct (is_history_lost e); simpl in H; by injection H as <- <-).
      eapply (scheduled_waiting s (EvError sid e)); [done | |].
      * unfold step. rewrite Hex, Hl, Herr. simpl. unfold on_error. rewrite Hcl. exact H.
      * destruct (is_history_lost e); simpl in H; injection H as <- <-;
          apply list_elem_of_In; simpl; tauto.
  - (* close() is awaited first *)
    assert (∃ s1' a1', step s1 (EvCloseDone sid None) = Some (s1', a1')
                       ∧ watches a1' = [] ∧ exited s1' = false
                       ∧ lastResumeToken s1' = lastResumeToken s1
                       ∧ waiting (now s1' + RETRY_DELAY)%Z s1') as (s1' & a1' & Hs & Hw & Hex' & Htok & Hwait).
    { destruct (is_history_lost e); simpl in H; injection H as <- <-;
        unfold step; simpl; rewrite Hex, Hc; simpl; rewrite Nat.eqb_refl;
        (eexists _, _; split; [reflexivity|]); simpl; rewrite Ht;
        unfold waiting; simpl; (repeat split; try done); lia. }
    destruct (waiting_fires s1' Hex' Hwait) as (s2 & a2 & Hr & Hw2).
    exists s2, (a1' ++ a2). split.
    + change (run s1 ([EvCloseDone sid None] ++ [EvTick 5000; EvTimer 0])
              = Some (s2, a1' ++ a2)).
      eapply run_app; [|exact Hr]. simpl. by rewrite Hs, app_nil_r.
    + by rewrite watches_app, Hw, Hw2, Htok.
Qed.

(** ** Delivering change events *)

Lemma change_run cs : ∀ s sid st,
  exited s = false → streams s !! sid = Some st →
  closed st = false → errored st = false →
  ∃ s', run s (map (EvChange sid) cs) = Some (s', flat_map change_log cs)
        ∧ streams s' = streams s ∧ exited s' = false
        ∧ timers s' = timers s ∧ closing s' = closing s
        ∧ lastResumeToken s'
          = default (lastResumeToken s) ((λ c, JTok (_id c)) <$> last cs).
Proof.
  induction cs as [|c cs IH]; intros s sid st Hex Hl Hcl Herr.
  - exists s. by simpl.
  - destruct (IH (fst (on_change s c)) sid st) as (s' & Hr & Hs & Hx & Ht & Hc & Htok);
      try done.
    exists s'. simpl. unfold step. rewrite Hex, Hl, Hcl, Herr. simpl.
    simpl in Hr. rewrite Hr. repeat split; try done.
    rewrite Htok. simpl. destruct cs as [|c' cs]; [reflexivity|].
    rewrite last_cons_cons.
    destruct (last (c' :: cs)) eqn:E; [reflexivity|]. by apply last_None in E.
Qed.

(** ** The error handler *)

Lemma error_step s sid e s1 a1 :
  step s (EvError sid e) = Some (s1, a1) →
  ∃ st, streams s !! sid = Some st ∧ errored st = false
    ∧ exited s1 = false ∧ watches a1 = [] ∧ count_warn a1 = 1
    ∧ lastResumeToken s1 = (if is_history_lost e then JNull else lastResumeToken s)
    ∧ live_count (streams s) = S (live_count (streams s1))
    ∧ Console LError [JStr "Error Code:"; opt_num (code e)] ∈ a1
    ∧ Console LError [JStr "Error Message:"; JStr (message e)] ∈ a1
    ∧ (if closed st then timers s1 = timers s ++ [(now s + RETRY_DELAY)%Z]
       else closing s1 = closing s ++ [sid] ∧ CloseStream sid ∈ a1).
Proof.
  intros H. unfold step in H. destruct (exited s) eqn:Hex; [done|].
  destruct (streams s !! sid) as [st|] eqn:Hl; [|done].
  destruct (errored st) eqn:Herr; [done|]. simpl in H.
  pose proof (live_count_fail (streams s) sid st
                (MkStream true true (closeEmitted st)) Hl Herr eq_refl) as Hf.
  exists st. unfold on_error in H.
  destruct (is_history_lost e), (closed st); simpl in H; injection H as <- <-; simpl;
    repeat split; try done; apply list_elem_of_In; simpl; tauto.
Qed.

Lemma fatal_not_history_lost e : spec_classify e = Fatal → is_history_lost e = false.
Proof. unfold spec_classify. by destruct (is_history_lost e). Qed.

(** After any error the program subscribes next with the options built
    from the checkpoint the handler left, whatever else happens first, and
    the events of [retry_events] make it do so. *)
Lemma next_subscription_after_error s sid e s1 a1 :
  Inv s → step s (EvError sid e) = Some (s1, a1) →
  (∀ evs s2 a2 o, run s1 evs = Some (s2, a2) → first_watch a2 = Some o →
                  o = setup_options (lastResumeToken s1))
  ∧ (∃ evs s2 a2, run s1 evs = Some (s2, a2)
                  ∧ first_watch a2 = Some (setup_options (lastResumeToken s1))).
Proof.
  intros Hi H.
  destruct (error_step _ _ _ _ _ H) as (st & Hl & Herr & _ & _ & _ & _ & Hlc & _).
  destruct (live_alone s sid st Hi Hl Herr) as (_ & _ & _ & H1).
  assert (live_count (streams s1) = 0) as Hq by lia.
  split.
  - intros evs s2 a2 o Hr Ho.
    destruct (quiet_run evs _ _ _ Hq Hr) as [(Hw & _)|Hw].
    + unfold first_watch in Ho. rewrite Hw in Ho. done.
    + congruence.
  - destruct (retry_runs s sid st e s1 a1 Hi Hl H) as (s2 & a2 & Hr & Hw).
    exists (retry_events sid st), s2, a2. split; [done|].
    unfold first_watch. by rewrite Hw.
Qed.

(** The resume scenario, run: events A and B arrive, the host becomes
    unreachable, the program waits and subscribes again after B, then C
    arrives.  The second subscription carries [{ resumeAfter: B }] and the
    checkpoint ends at C. *)
Example resume_scenario :
  ∃ s acts,
    run init [EvConnected; EvChange 0 chA; EvChange 0 chB;
              EvError 0 err_unreachable; EvCloseDone 0 None;
              EvTick 5000; EvTimer 0; EvChange 1 chC] = Some (s, acts)
    ∧ watches acts = [∅; {[ "resumeAfter" := JTok tokB ]}]
    ∧ lastResumeToken s = JTok tokC ∧ open_count (streams s) = 1.
Proof. eexists _, _. repeat split; reflexivity. Qed.

(** * The claims *)

(** C1. When a stream fails with an error that is not a history loss while
    the checkpoint holds a token [tk], the error handler keeps the
    checkpoint and subscribes to nothing itself; whatever happens next, the
    first subscription issued afterwards carries exactly
    [{ resumeAfter: tk }], and the events in which the awaited close
    settles, five seconds pass and the timer fires do issue it. *)
Theorem transient_error_resumes_from_checkpoint s sid e tk :
  reachable s → lastResumeToken s = JTok tk → is_history_lost e = false →
  is_Some (step s (EvError sid e)) →
  ∃ s1 a1, step s (EvError sid e) = Some (s1, a1)
    ∧ lastResumeToken s1 = JTok tk ∧ watches a1 = []
    ∧ (∀ evs s2 a2 o, run s1 evs = Some (s2, a2) → first_watch a2 = Some o →
                      o = {[ "resumeAfter" := JTok tk ]}
                      ∧ o !! "resumeAfter" = Some (JTok tk))
    ∧ (∃ evs s2 a2, run s1 evs = Some (s2, a2)
                    ∧ first_watch a2 = Some {[ "resumeAfter" := JTok tk ]}).
Proof.
  intros Hre Htk Hhl [[s1 a1] H]. exists s1, a1.
  pose proof (reachable_inv _ Hre) as Hi.
  destruct (error_step _ _ _ _ _ H) as (st & _ & _ & _ & Hw & _ & Ht & _).
  rewrite Hhl, Htk in Ht.
  destruct (next_subscription_after_error _ _ _ _ _ Hi H) as [Hall Hex].
  rewrite Ht in Hall, Hex. change (setup_options (JTok tk))
    with ({[ "resumeAfter" := JTok tk ]} : gmap string jsval) in Hall, Hex.
  split; [done|]. split; [done|]. split; [done|]. split; [|done].
  intros evs s2 a2 o Hr Ho. rewrite (Hall _ _ _ _ Hr Ho).
  split; [done | apply lookup_singleton_eq].
Qed.

(** The checkpoint is at A when the host becomes unreachable. *)
Lemma transient_error_resumes_from_checkpoint_witness :
  ∃ s1 a1, step st_streamingA (EvError 0 err_unreachable) = Some (s1, a1)
    ∧ lastResumeToken s1 = JTok tokA ∧ watches a1 = []
    ∧ (∀ evs s2 a2 o, run s1 evs = Some (s2, a2) → first_watch a2 = Some o →
                      o = {[ "resumeAfter" := JTok tokA ]}
                      ∧ o !! "resumeAfter" = Some (JTok tokA))
    ∧ (∃ evs s2 a2, run s1 evs = Some (s2, a2)
                    ∧ first_watch a2 = Some {[ "resumeAfter" := JTok tokA ]}).
Proof.
  apply (transient_error_resumes_from_checkpoint st_streamingA 0 err_unreachable tokA).
  - exists [EvConnected; EvChange 0 chA]. eexists. reflexivity.
  - reflexivity.
  - reflexivity.
  - eexists. reflexivity.
Defined.

(** C2. When a stream fails with [codeName] ChangeStreamHistoryLost, the
    error handler resets the checkpoint to null and calls [console.warn]
    exactly once; whatever happens next, the first subscription issued
    afterwards carries the empty options object (no [resumeAfter] key), no
    further warning is printed as long as no other error arrives, and the
    retry events do issue that subscription. *)
Theorem history_lost_restarts_from_scratch s sid e :
  reachable s → is_history_lost e = true →
  is_Some (step s (EvError sid e)) →
  ∃ s1 a1, step s (EvError sid e) = Some (s1, a1)
    ∧ lastResumeToken s1 = JNull ∧ count_warn a1 = 1 ∧ watches a1 = []
    ∧ (∀ evs s2 a2, run s1 evs = Some (s2, a2) →
         (∀ o, first_watch a2 = Some o → o = ∅ ∧ o !! "resumeAfter" = None)
         ∧ (watches a2 = [] → lastResumeToken s2 = JNull)
         ∧ (forallb (λ ev, negb (is_error_event ev)) evs = true →
            count_warn (a1 ++ a2) = 1))
    ∧ (∃ evs s2 a2, run s1 evs = Some (s2, a2) ∧ first_watch a2 = Some ∅
                    ∧ count_warn (a1 ++ a2) = 1).
Proof.
  intros Hre Hhl [[s1 a1] H]. exists s1, a1.
  pose proof (reachable_inv _ Hre) as Hi.
  destruct (error_step _ _ _ _ _ H) as (st & Hl & Herr & _ & Hw & Hc & Ht & Hlc & _).
  rewrite Hhl in Ht.
  destruct (live_alone s sid st Hi Hl Herr) as (_ & _ & _ & H1).
  assert (live_count (streams s1) = 0) as Hq by lia.
  destruct (next_subscription_after_error _ _ _ _ _ Hi H) as [Hall _].
  rewrite Ht in Hall.
  change (setup_options JNull) with (∅ : gmap string jsval) in Hall.
  split; [done|]. split; [done|]. split; [done|]. split; [done|]. split.
  - intros evs s2 a2 Hr. split; [|split].
    + intros o Ho. rewrite (Hall _ _ _ _ Hr Ho). split; [done | apply lookup_empty].
    + intros Hn. destruct (quiet_run evs _ _ _ Hq Hr) as [(_ & Htok & _)|Hf].
      * by rewrite Htok.
      * unfold first_watch in Hf. by rewrite Hn in Hf.
    + intros Hne. by rewrite count_warn_app, Hc, (run_no_warn _ _ _ _ Hr Hne).
  - destruct (retry_runs s sid st e s1 a1 Hi Hl H) as (s2 & a2 & Hr & Hw2).
    exists (retry_events sid st), s2, a2. split; [done|]. split.
    + unfold first_watch. by rewrite Hw2, Ht.
    + rewrite count_warn_app, Hc, (run_no_warn _ _ _ _ Hr); [done|].
      unfold retry_events. by destruct (closed st).
Qed.

(** The checkpoint is at A when the history is lost. *)
Lemma history_lost_restarts_from_scratch_witness :
  ∃ s1 a1, step st_streamingA (EvError 0 err_history_lost) = Some (s1, a1)
    ∧ lastResumeToken s1 = JNull ∧ count_warn a1 = 1 ∧ watches a1 = []
    ∧ (∀ evs s2 a2, run s1 evs = Some (s2, a2) →
         (∀ o, first_watch a2 = Some o → o = ∅ ∧ o !! "resumeAfter" = None)
         ∧ (watches a2 = [] → lastResumeToken s2 = JNull)
         ∧ (forallb (λ ev, negb (is_error_event ev)) evs = true →
            count_warn (a1 ++ a2) = 1))
    ∧ (∃ evs s2 a2, run s1 evs = Some (s2, a2) ∧ first_watch a2 = Some ∅
                    ∧ count_warn (a1 ++ a2) = 1).
Proof.
  apply (history_lost_restarts_from_scratch st_streamingA 0 err_history_lost).
  - exists [EvConnected; EvChange 0 chA]. eexists. reflexivity.
  - reflexivity.
  - eexists. reflexivity.
Defined.

(** C3, as stated, fails: an authorization failure, which the
    specification's classification calls Fatal, is handled like any other
    error.  After it the awaited close settles, five seconds pass, the timer
    fires and a second subscription is issued; the process has not exited
    and a stream is open again. *)
Lemma fatal_error_does_not_stop :
  spec_classify err_unauthorized = Fatal
  ∧ ∃ s acts,
      run init [EvConnected; EvChange 0 chA; EvError 0 err_unauthorized;
                EvCloseDone 0 None; EvTick 5000; EvTimer 0] = Some (s, acts)
      ∧ watches acts = [∅; {[ "resumeAfter" := JTok tokA ]}]
      ∧ exited s = false ∧ open_count (streams s) = 1.
Proof.
  split; [reflexivity|]. eexists _, _. split; [reflexivity|].
  split; [|split]; reflexivity.
Qed.

(** C3, amended.  For every error the specification classifies as Fatal
    the scheduler does not stop.  The error handler prints the error's
    code and message with [console.error], keeps the checkpoint and does
    not exit.  If the stream is already closed it calls no [close()] and
    calls [setTimeout(setupChangeStream, 5000)] at once; otherwise it calls
    [close()] on the stream, once, and sets the same timer when that
    [close()] has settled, resolved or rejected.  Whatever happens next,
    the first subscription issued afterwards is built from the unchanged
    checkpoint, and the retry events do issue it. *)
Theorem fatal_error_is_retried s sid e :
  reachable s → spec_classify e = Fatal →
  is_Some (step s (EvError sid e)) →
  ∃ st s1 a1, streams s !! sid = Some st
    ∧ step s (EvError sid e) = Some (s1, a1)
    ∧ exited s1 = false ∧ lastResumeToken s1 = lastResumeToken s
    ∧ Console LError [JStr "Error Code:"; opt_num (code e)] ∈ a1
    ∧ Console LError [JStr "Error Message:"; JStr (message e)] ∈ a1
    ∧ (if closed st
       then filter is_close_call a1 = []
            ∧ filter is_timeout a1 = [SetTimeout RETRY_DELAY]
            ∧ timers s1 = [(now s + RETRY_DELAY)%Z]
       else filter is_close_call a1 = [CloseStream sid]
            ∧ filter is_timeout a1 = []
            ∧ closing s1 = [sid] ∧ timers s1 = []
            ∧ ∀ r, ∃ s2 a2, step s1 (EvCloseDone sid r) = Some (s2, a2)
                ∧ filter is_timeout a2 = [SetTimeout RETRY_DELAY]
                ∧ timers s2 = [(now s1 + RETRY_DELAY)%Z]
                ∧ lastResumeToken s2 = lastResumeToken s
                ∧ exited s2 = false)
    ∧ (∀ evs s2 a2 o, run s1 evs = Some (s2, a2) → first_watch a2 = Some o →
                      o = setup_options (lastResumeToken s))
    ∧ (∃ evs s2 a2, run s1 evs = Some (s2, a2)
                    ∧ first_watch a2 = Some (setup_options (lastResumeToken s))).
Proof.
  intros Hre Hf [[s1 a1] H].
  pose proof (reachable_inv _ Hre) as Hi.
  apply fatal_not_history_lost in Hf.
  destruct (error_step _ _ _ _ _ H)
    as (st & Hl & Herr & Hex & _ & _ & Ht & _ & Hc1 & Hc2 & _).
  rewrite Hf in Ht.
  destruct (live_alone s sid st Hi Hl Herr) as (Htm & Hcl & _ & _).
  destruct (next_subscription_after_error _ _ _ _ _ Hi H) as [Hall Hsub].
  rewrite Ht in Hall, Hsub.
  exists st, s1, a1. repeat (split; [done|]). split; [|done].
  unfold step in H. destruct (exited s) eqn:Hexs; [done|].
  rewrite Hl, Herr in H. simpl in H. unfold on_error in H. rewrite Hf in H.
  destruct (closed st); simpl in H; injection H as <- <-; simpl.
  - by rewrite Htm.
  - rewrite Hcl, Htm. repeat (split; [done|]). intros r.
    unfold step. simpl. rewrite Hexs, Nat.eqb_refl.
    unfold on_error_resume, schedule_retry. simpl.
    destruct r; eexists _, _; (split; [reflexivity|]); simpl; by rewrite ?Htm.
Qed.

(** The checkpoint is at A when the store refuses authorization. *)
Lemma fatal_error_is_retried_witness :
  ∃ st s1 a1, streams st_streamingA !! 0 = Some st
    ∧ step st_streamingA (EvError 0 err_unauthorized) = Some (s1, a1)
    ∧ exited s1 = false ∧ lastResumeToken s1 = lastResumeToken st_streamingA
    ∧ Console LError [JStr "Error Code:"; opt_num (code err_unauthorized)] ∈ a1
    ∧ Console LError [JStr "Error Message:"; JStr (message err_unauthorized)] ∈ a1
    ∧ (if closed st
       then filter is_close_call a1 = []
            ∧ filter is_timeout a1 = [SetTimeout RETRY_DELAY]
            ∧ timers s1 = [(now st_streamingA + RETRY_DELAY)%Z]
       else filter is_close_call a1 = [CloseStream 0]
            ∧ filter is_timeout a1 = []
            ∧ closing s1 = [0] ∧ timers s1 = []
            ∧ ∀ r, ∃ s2 a2, step s1 (EvCloseDone 0 r) = Some (s2, a2)
                ∧ filter is_timeout a2 = [SetTimeout RETRY_DELAY]
                ∧ timers s2 = [(now s1 + RETRY_DELAY)%Z]
                ∧ lastResumeToken s2 = lastResumeToken st_streamingA
                ∧ exited s2 = false)
    ∧ (∀ evs s2 a2 o, run s1 evs = Some (s2, a2) → first_watch a2 = Some o →
                      o = setup_options (lastResumeToken st_streamingA))
    ∧ (∃ evs s2 a2, run s1 evs = Some (s2, a2)
                    ∧ first_watch a2
                      = Some (setup_options (lastResumeToken st_streamingA))).
Proof.
  apply (fatal_error_is_retried st_streamingA 0 err_unauthorized).
  - exists [EvConnected; EvChange 0 chA]. eexists. reflexivity.
  - reflexivity.
  - eexists. reflexivity.
Defined.

(** C4. When a stream that is neither closed nor failed delivers the
    events [cs] followed by [c] and nothing else happens in between, every
    handler runs, and afterwards [lastResumeToken] is the [_id] of [c], the
    last event delivered. *)
Theorem checkpoint_is_last_position s sid st cs c :
  exited s = false → streams s !! sid = Some st →
  closed st = false → errored st = false →
  ∃ s' a, run s (map (EvChange sid) (cs ++ [c])) = Some (s', a)
          ∧ lastResumeToken s' = JTok (_id c).
Proof.
  intros Hex Hl Hcl Herr.
  destruct (change_run (cs ++ [c]) s sid st Hex Hl Hcl Herr)
    as (s' & Hr & _ & _ & _ & _ & Htok).
  exists s', (flat_map change_log (cs ++ [c])). split; [done|].
  by rewrite Htok, last_snoc.
Qed.

(** The first stream delivers A, B and C. *)
Lemma checkpoint_is_last_position_witness :
  ∃ s' a, run st_streaming0 (map (EvChange 0) ([chA; chB] ++ [chC])) = Some (s', a)
          ∧ lastResumeToken s' = JTok (_id chC).
Proof.
  apply (checkpoint_is_last_position st_streaming0 0 fresh_stream [chA; chB] chC);
    reflexivity.
Defined.

(** C6, as stated, fails in its second half: nothing cancels the timer.
    A stream fails at time 0 and the retry is scheduled; SIGTERM arrives at
    4000 ms, [cleanup] starts and awaits [mongoose.disconnect()] with the
    timer still pending; at 5000 ms the timer fires and the next
    subscription is issued, after the stop request. *)
Lemma stop_request_does_not_cancel_retry :
  ∃ s1 a1 s2 a2,
    run init [EvConnected; EvChange 0 chA; EvError 0 err_unreachable;
              EvCloseDone 0 None; EvTick 4000; EvSignal SIGTERM] = Some (s1, a1)
    ∧ watches a1 = [∅] ∧ timers s1 = [5000%Z] ∧ cleanups s1 = 1
    ∧ run s1 [EvTick 1000; EvTimer 0] = Some (s2, a2)
    ∧ watches a2 = [{[ "resumeAfter" := JTok tokA ]}].
Proof.
  eexists _, _, _, _. split; [reflexivity|].
  split; [reflexivity|]. split; [reflexivity|]. split; [reflexivity|].
  split; reflexivity.
Qed.

(** C6, amended.  Once a handler has called
    [setTimeout(setupChangeStream, 5000)] at time [now s], whatever happens
    next, any handler that issues a subscription runs at a time at least
    [now s + 5000].  A stop request does not cancel the wait: [cleanup]
    leaves the timer pending and subscribes to nothing; only
    [process.exit] ends the wait, for after it no handler runs. *)
Theorem retry_waits_fixed_interval s e s1 a1 evs s2 a2 :
  reachable s → step s e = Some (s1, a1) → SetTimeout RETRY_DELAY ∈ a1 →
  run s1 evs = Some (s2, a2) →
  (∀ e' s3 a3, step s2 e' = Some (s3, a3) → watches a3 ≠ [] →
               (now s + RETRY_DELAY ≤ now s2)%Z)
  ∧ (∀ sg s3 a3, step s2 (EvSignal sg) = Some (s3, a3) →
                 timers s3 = timers s2 ∧ watches a3 = [] ∧ exited s3 = false)
  ∧ (exited s2 = true → ∀ e', step s2 e' = None).
Proof.
  intros Hre Hs Hin Hr. pose proof (reachable_inv _ Hre) as Hi.
  pose proof (scheduled_waiting _ _ _ _ Hi Hs Hin) as Hw.
  split; [|split].
  - intros e' s3 a3 Hs3 Hne.
    destruct (waiting_run _ _ _ _ _ Hw Hr) as [Hw2|Hd]; [|done].
    destruct (waiting_step _ _ _ _ _ Hw2 Hs3) as [[_ Hno]|Hd]; done.
  - intros sg s3 a3 H. unfold step in H. destruct (exited s2) eqn:Hex; [done|].
    unfold cleanup in H. by injection H as <- <-.
  - intros Hex e'. unfold step. by rewrite Hex.
Qed.

(** The retry scheduled at time 0 when the close settled, seen five seconds later. *)
Lemma retry_waits_fixed_interval_witness :
  (∀ e' s3 a3, step st_dueA e' = Some (s3, a3) → watches a3 ≠ [] →
               (now st_closingA + RETRY_DELAY ≤ now st_dueA)%Z)
  ∧ (∀ sg s3 a3, step st_dueA (EvSignal sg) = Some (s3, a3) →
                 timers s3 = timers st_dueA ∧ watches a3 = [] ∧ exited s3 = false)
  ∧ (exited st_dueA = true → ∀ e', step st_dueA e' = None).
Proof.
  eapply (retry_waits_fixed_interval st_closingA (EvCloseDone 0 None) _ _
            [EvTick 5000] st_dueA).
  - exists [EvConnected; EvChange 0 chA; EvError 0 err_unreachable]. eexists.
    reflexivity.
  - reflexivity.
  - apply list_elem_of_In. simpl. tauto.
  - reflexivity.
Defined.

Lemma timeout_only_after_error s e s' a d :
  step s e = Some (s', a) → SetTimeout d ∈ a →
  (∃ sid err, e = EvError sid err) ∨ (∃ sid r, e = EvCloseDone sid r).
Proof.
  intros H Hin. step_cases H; eauto; exfalso.
  - destruct (main s); try done. injection H as <- <-. not_in Hin.
  - destruct (main s); try done. injection H as <- <-. not_in Hin.
  - destruct (streams s !! sid) as [st|]; [|done].
    destruct (negb (closed st) && negb (errored st)); [|done].
    injection H as <- <-. not_in Hin.
  - destruct (streams s !! sid) as [st|]; [|done].
    destruct (closeEmitted st); [done|]. injection H as <- <-. not_in Hin.
  - injection H as <- <-. not_in Hin.
  - destruct (timers s !! k); [|done]. destruct (Z.leb _ _); [|done].
    injection H as <- <-. not_in Hin.
  - injection H as <- <-. not_in Hin.
  - destruct (cleanups s); [done|]. injection H as <- <-. destruct r; not_in Hin.
  - destruct (main s); try done. injection H as <- <-. destruct r; not_in Hin.
  - destruct (main s); try done. injection H as <- <-. destruct r; not_in Hin.
Qed.

(** C7, as stated, fails: a stream that closes without an error is not
    resumed.  After the ['close'] event and five seconds, only the initial
    subscription has been issued, [setTimeout] was never called, no timer
    and no handler is pending, no stream is open, and no timer can fire. *)
Lemma clean_close_is_not_resumed :
  ∃ s acts,
    run init [EvConnected; EvChange 0 chA; EvClose 0; EvTick 5000] = Some (s, acts)
    ∧ watches acts = [∅] ∧ filter is_timeout acts = []
    ∧ timers s = [] ∧ closing s = [] ∧ open_count (streams s) = 0
    ∧ lastResumeToken s = JTok tokA
    ∧ ∀ k, step s (EvTimer k) = None.
Proof.
  eexists _, _. split; [reflexivity|].
  repeat (split; [reflexivity|]). by intros [|k].
Qed.

(** C7, amended.  The ['close'] handler only prints one line: it keeps the
    checkpoint, sets no timer, awaits nothing and subscribes to nothing.
    [setTimeout] is called by the ['error'] handler alone, at once or after
    its awaited close, so a stream is resumed only when it has emitted
    ['error']. *)
Theorem clean_close_only_logs s sid s' a :
  step s (EvClose sid) = Some (s', a) →
  a = on_close ∧ lastResumeToken s' = lastResumeToken s
  ∧ timers s' = timers s ∧ closing s' = closing s ∧ watches a = []
  ∧ (∀ d, SetTimeout d ∉ a)
  ∧ (∀ e s1 a1 d, step s e = Some (s1, a1) → SetTimeout d ∈ a1 →
       (∃ sid' err, e = EvError sid' err) ∨ (∃ sid' r, e = EvCloseDone sid' r)).
Proof.
  intros H. split; [|split; [|split; [|split; [|split; [|split]]]]].
  7: { intros e s1 a1 d. apply timeout_only_after_error. }
  all: unfold step in H; destruct (exited s); [done|];
    destruct (streams s !! sid) as [st|]; [|done];
    destruct (closeEmitted st); [done|]; simpl in H; injection H as <- <-; try done.
  intros d Hin. not_in Hin.
Qed.

(** The first stream closes with the checkpoint at A. *)
Lemma clean_close_only_logs_witness :
  ∃ s', step st_streamingA (EvClose 0) = Some (s', on_close)
        ∧ lastResumeToken s' = JTok tokA ∧ timers s' = [] ∧ closing s' = [].
Proof.
  eexists. split; [reflexivity|].
  destruct (clean_close_only_logs st_streamingA 0 _ _ eq_refl)
    as (_ & Ht & Htm & Hc & _).
  by rewrite Ht, Htm, Hc.
Defined.

(** ** One stream at a time *)

Lemma watch_step s e s' a :
  step s e = Some (s', a) → watches a ≠ [] →
  (main s = MainConnecting ∨ timers s ≠ [])
  ∧ streams s' = streams s ++ [fresh_stream].
Proof.
  intros H Hne. step_cases H.
  - destruct (main s); try done. injection H as <- <-. split; [by left | done].
  - destruct (main s); try done. by injection H as <- <-.
  - destruct (streams s !! sid) as [st|]; [|done].
    destruct (negb (closed st) && negb (errored st)); [|done].
    by injection H as <- <-.
  - destruct (streams s !! sid) as [st|]; [|done].
    destruct (errored st); [done|]. simpl in H. unfold on_error in H.
    destruct (is_history_lost e), (closed st); simpl in H; by injection H as <- <-.
  - destruct (streams s !! sid) as [st|]; [|done].
    destruct (closeEmitted st); [done|]. by injection H as <- <-.
  - destruct (remove_pending sid (closing s)); [|done].
    injection H as <- <-. by destruct r.
  - by injection H as <- <-.
  - destruct (timers s !! k) eqn:Hk; [|done]. destruct (Z.leb _ _); [|done].
    injection H as <- <-. split; [|done]. right. intros E. by rewrite E in Hk.
  - by injection H as <- <-.
  - destruct (cleanups s); [done|]. injection H as <- <-. by destruct r.
  - destruct (main s); try done. injection H as <- <-. by destruct r.
  - destruct (main s); try done. injection H as <- <-. by destruct r.
Qed.

(** In a reachable state [close()] is called by the error handler alone,
    on the stream that failed, in a run that sets no timer and subscribes
    to nothing and ends suspended at the [await]. *)
Lemma close_call_step s e s' a sid :
  Inv s → step s e = Some (s', a) → CloseStream sid ∈ a →
  (∃ err, e = EvError sid err)
  ∧ awaiting_close sid s'
  ∧ filter is_timeout a = [] ∧ watches a = []
  ∧ filter is_close_call a = [CloseStream sid]
  ∧ ∃ st', streams s' !! sid = Some st' ∧ closed st' = true.
Proof.
  intros Hi H Hin. pose proof Hi as [_ _ _ Hm]. unfold awaiting_close.
  step_cases H.
  - destruct (main s); try done. injection H as <- <-. exfalso. not_in Hin.
  - destruct (main s); try done. injection H as <- <-. exfalso. not_in Hin.
  - destruct (streams s !! sid0) as [st|]; [|done].
    destruct (negb (closed st) && negb (errored st)); [|done].
    injection H as <- <-. exfalso. not_in Hin.
  - destruct (streams s !! sid0) as [st|] eqn:Hl; [|done].
    destruct (errored st) eqn:Herr; [done|]. simpl in H.
    destruct (live_alone s sid0 st Hi Hl Herr) as (Ht & Hc & Hmc & Hlc).
    pose proof (live_count_fail (streams s) sid0 st
                  (MkStream true true (closeEmitted st)) Hl Herr eq_refl) as Hf.
    pose proof (lookup_lt_Some _ _ _ Hl) as Hlt.
    unfold on_error in H.
    destruct (closed st) eqn:Hcl; simpl in H.
    + exfalso. destruct (is_history_lost e); simpl in H; injection H as <- <-;
        not_in Hin.
    + assert (sid0 = sid) as ->.
      { destruct (is_history_lost e); simpl in H; injection H as <- <-;
          apply list_elem_of_In in Hin; simpl in Hin;
          repeat (destruct Hin as [Hin|Hin]; [by (discriminate || injection Hin)|]);
          done. }
      destruct (is_history_lost e); simpl in H; injection H as <- <-; simpl;
        rewrite Hc, Ht, list_lookup_insert_eq by done;
        (repeat split; eauto; lia).
  - destruct (streams s !! sid0) as [st|]; [|done].
    destruct (closeEmitted st); [done|]. injection H as <- <-. exfalso. not_in Hin.
  - destruct (remove_pending sid0 (closing s)); [|done].
    injection H as <- <-. exfalso. destruct r; not_in Hin.
  - injection H as <- <-. exfalso. not_in Hin.
  - destruct (timers s !! k); [|done]. destruct (Z.leb _ _); [|done].
    injection H as <- <-. exfalso. not_in Hin.
  - injection H as <- <-. exfalso. not_in Hin.
  - destruct (cleanups s); [done|]. injection H as <- <-. exfalso.
    destruct r; not_in Hin.
  - destruct (main s) eqn:Hmain; try done. by destruct (Hm cur).
  - destruct (main s); try done. injection H as <- <-. exfalso.
    destruct r; not_in Hin.
Qed.

(** While the error handler awaits [close()] on [sid], a handler run either
    is the settlement of that [close()], or sets no timer, subscribes to
    nothing and leaves the handler waiting. *)
Lemma awaiting_step sid s e s' a :
  awaiting_close sid s → step s e = Some (s', a) →
  (∃ r, e = EvCloseDone sid r)
  ∨ (awaiting_close sid s' ∧ filter is_timeout a = [] ∧ watches a = []).
Proof.
  intros (Hc & Ht & Hq & Hm) H. unfold awaiting_close. step_cases H.
  - destruct (main s); done.
  - destruct (main s); done.
  - destruct (streams s !! sid0) as [st|] eqn:Hl; [|done].
    rewrite (live_count_zero _ _ _ Hq Hl), andb_false_r in H. done.
  - destruct (streams s !! sid0) as [st|] eqn:Hl; [|done].
    rewrite (live_count_zero _ _ _ Hq Hl) in H. done.
  - destruct (streams s !! sid0) as [st|] eqn:Hl; [|done].
    destruct (closeEmitted st); [done|]. injection H as <- <-. right. simpl.
    by rewrite (live_count_keep (streams s) sid0 st).
  - rewrite Hc in H. simpl in H.
    destruct (Nat.eqb sid0 sid) eqn:E; [|done].
    apply Nat.eqb_eq in E as ->. left. eauto.
  - injection H as <- <-. by right.
  - by rewrite Ht in H.
  - injection H as <- <-. by right.
  - destruct (cleanups s); [done|]. injection H as <- <-. right. by destruct r.
  - destruct (main s) eqn:Hmain; try done. injection H as <- <-. right. by destruct r.
  - destruct (main s) eqn:Hmain; try done. injection H as <- <-. right. by destruct r.
Qed.

Lemma awaiting_run sid evs : ∀ s s' a,
  awaiting_close sid s → run s evs = Some (s', a) →
  (∃ r, EvCloseDone sid r ∈ evs)
  ∨ (awaiting_close sid s' ∧ filter is_timeout a = [] ∧ watches a = []).
Proof.
  induction evs as [|e evs IH]; intros s s' a Hw H; simpl in H.
  - injection H as <- <-. by right.
  - destruct (step s e) as [[s1 a1]|] eqn:Hs; [|done].
    destruct (run s1 evs) as [[s2 a2]|] eqn:Hr; [|done].
    injection H as <- <-.
    destruct (awaiting_step _ _ _ _ _ Hw Hs) as [[r ->]|(Hw1 & Ht1 & Hw1')].
    + left. exists r. apply list_elem_of_here.
    + destruct (IH _ _ _ Hw1 Hr) as [[r Hin]|(Hw2 & Ht2 & Hw2')].
      * left. exists r. by apply list_elem_of_further.
      * right. by rewrite filter_app, watches_app, Ht1, Ht2, Hw1', Hw2'.
Qed.

(** C8. In every reachable state at most one change stream has [closed]
    false.  A handler that subscribes finds every earlier stream closed and
    no [close()] outstanding, and leaves exactly one stream open.  A
    handler that calls [setTimeout] to retry does so with every stream
    closed and no [close()] outstanding.  A handler that calls [close()] on
    a stream sets no timer and subscribes to nothing in that run: it is
    left suspended at the [await], and in every continuation no timer is
    set and no subscription is issued before that [close()] has settled.
    So the close of the failed stream completes before the retry that
    opens the next one is scheduled. *)
Theorem at_most_one_open_stream s :
  reachable s →
  open_count (streams s) ≤ 1
  ∧ (∀ e s' a, step s e = Some (s', a) → watches a ≠ [] →
       open_count (streams s) = 0 ∧ closing s = []
       ∧ open_count (streams s') = 1)
  ∧ (∀ e s' a, step s e = Some (s', a) → SetTimeout RETRY_DELAY ∈ a →
       open_count (streams s') = 0 ∧ closing s' = [])
  ∧ (∀ e s' a sid, step s e = Some (s', a) → CloseStream sid ∈ a →
       filter is_timeout a = [] ∧ watches a = []
       ∧ filter is_close_call a = [CloseStream sid]
       ∧ closing s' = [sid] ∧ open_count (streams s') = 0
       ∧ ∀ evs s2 a2, run s' evs = Some (s2, a2) →
           filter is_timeout a2 ≠ [] ∨ watches a2 ≠ [] →
           ∃ r, EvCloseDone sid r ∈ evs).
Proof.
  intros Hre. pose proof (reachable_inv _ Hre) as Hi.
  pose proof Hi as [Hp Hs _ _]. pose proof (open_le_live _ Hs) as Hol.
  unfold potential in Hp. split; [lia|]. split; [|split].
  - intros e s' a H Hne. destruct (watch_step _ _ _ _ H Hne) as [Hwhy ->].
    rewrite open_count_app. simpl.
    assert (live_count (streams s) = 0 ∧ closing s = []) as [Hl Hc].
    { destruct Hwhy as [Hm|Ht].
      - rewrite Hm in Hp. destruct (closing s); simpl in Hp; [split; [lia|done] | lia].
      - destruct (timers s); [done|].
        destruct (closing s); simpl in Hp; [split; [lia|done] | lia]. }
    repeat split; [lia | done | lia].
  - intros e s' a H Hin.
    pose proof (scheduled_waiting _ _ _ _ Hi H Hin) as (_ & Hc & Hl & _).
    pose proof (step_inv _ _ _ _ Hi H) as [_ Hs' _ _].
    pose proof (open_le_live _ Hs'). split; [lia | done].
  - intros e s' a sid H Hin.
    destruct (close_call_step _ _ _ _ _ Hi H Hin)
      as (_ & Haw & Ht & Hw & Hcc & _).
    pose proof (step_inv _ _ _ _ Hi H) as [_ Hs' _ _].
    pose proof (open_le_live _ Hs') as Hol'.
    pose proof Haw as (Hc & _ & Hl & _).
    repeat (split; [done|]). split; [lia|].
    intros evs s2 a2 Hr Hsome.
    destruct (awaiting_run _ _ _ _ _ Haw Hr) as [Hdone|(_ & Ht2 & Hw2)]; [done|].
    destruct Hsome as [Hne|Hne]; by destruct Hne.
Qed.

(** The state in which the error handler awaits the close of the first stream. *)
Lemma at_most_one_open_stream_witness :
  open_count (streams st_closingA) ≤ 1
  ∧ (∀ e s' a, step st_closingA e = Some (s', a) → watches a ≠ [] →
       open_count (streams st_closingA) = 0 ∧ closing st_closingA = []
       ∧ open_count (streams s') = 1)
  ∧ (∀ e s' a, step st_closingA e = Some (s', a) → SetTimeout RETRY_DELAY ∈ a →
       open_count (streams s') = 0 ∧ closing s' = [])
  ∧ (∀ e s' a sid, step st_closingA e = Some (s', a) → CloseStream sid ∈ a →
       filter is_timeout a = [] ∧ watches a = []
       ∧ filter is_close_call a = [CloseStream sid]
       ∧ closing s' = [sid] ∧ open_count (streams s') = 0
       ∧ ∀ evs s2 a2, run s' evs = Some (s2, a2) →
           filter is_timeout a2 ≠ [] ∨ watches a2 ≠ [] →
           ∃ r, EvCloseDone sid r ∈ evs).
Proof.
  apply (at_most_one_open_stream st_closingA).
  exists [EvConnected; EvChange 0 chA; EvError 0 err_unreachable]. eexists.
  reflexivity.
Defined.

(** C9, as stated, fails: [cleanup] does not close the active stream.
    With a stream open, SIGINT makes the program disconnect and, once the
    disconnect has settled, exit with status 0; [close()] was never called
    and the stream's [closed] is still false at exit. *)
Lemma shutdown_leaves_stream_open :
  ∃ s acts,
    run init [EvConnected; EvChange 0 chA; EvSignal SIGINT; EvDisconnected None]
    = Some (s, acts)
    ∧ exited s = true ∧ last acts = Some (Exit 0)
    ∧ filter is_close_call acts = []
    ∧ streams s !! 0 = Some fresh_stream ∧ open_count (streams s) = 1.
Proof.
  eexists _, _. split; [reflexivity|].
  repeat (split; [reflexivity|]). reflexivity.
Qed.

(** C9, amended.  On every termination signal received before exit,
    [cleanup] prints one line and calls [mongoose.disconnect()], and
    nothing else: it closes no stream, subscribes to nothing, leaves
    streams, timers and suspended handlers as they are, and does not run
    the [finally] block ([runMongooseResumableDemo] stays suspended where
    it was).  A second signal is handled the same way.  When the
    disconnect settles, a rejection is caught and printed with
    [console.error], and, resolved or rejected, the program then calls
    [process.exit(0)] without having closed a stream; no handler runs
    afterwards.  The [finally] block calls [close()] on the current stream
    exactly when its [closed] is false. *)
Theorem signal_disconnects_and_exits s sg :
  exited s = false →
  ∃ s1 a1, step s (EvSignal sg) = Some (s1, a1)
    ∧ Disconnect ∈ a1 ∧ filter is_close_call a1 = [] ∧ watches a1 = []
    ∧ streams s1 = streams s ∧ timers s1 = timers s ∧ exited s1 = false
    ∧ (∀ sg', ∃ s1' a1', step s1 (EvSignal sg') = Some (s1', a1')
                         ∧ Disconnect ∈ a1' ∧ exited s1' = false)
    ∧ (∀ r, ∃ s2 a2, step s1 (EvDisconnected r) = Some (s2, a2)
              ∧ last a2 = Some (Exit 0) ∧ filter is_close_call a2 = []
              ∧ exited s2 = true ∧ streams s2 = streams s
              ∧ ∀ e, step s2 e = None)
    ∧ (∀ cur st, streams s !! cur = Some st → closed st = true →
         filter is_close_call (finally_block s (Some cur)).2 = [])
    ∧ a1 = [ Console LLog [JStr "\nReceived "; JStr (signal_name sg);
                           JStr ". Forcing exit for demo simplicity, but ensuring Mongoose disconnects."];
             Disconnect ]
    ∧ main s1 = main s ∧ closing s1 = closing s
    ∧ lastResumeToken s1 = lastResumeToken s
    ∧ (∀ sg', ∃ s1', step s1 (EvSignal sg')
         = Some (s1', [ Console LLog [JStr "\nReceived "; JStr (signal_name sg');
                                      JStr ". Forcing exit for demo simplicity, but ensuring Mongoose disconnects."];
                        Disconnect ])
         ∧ main s1' = main s ∧ streams s1' = streams s ∧ timers s1' = timers s)
    ∧ (∀ r, ∃ s2, step s1 (EvDisconnected r)
         = Some (s2, disconnect_caught r ++ [Exit 0%Z])
         ∧ main s2 = main s ∧ timers s2 = timers s ∧ closing s2 = closing s)
    ∧ (∀ cur st, streams s !! cur = Some st → closed st = false →
         filter is_close_call (finally_block s (Some cur)).2 = [CloseStream cur]).
Proof.
  intros Hex. exists (cleanup s sg).1, (cleanup s sg).2.
  split; [unfold step; by rewrite Hex|].
  split; [apply list_elem_of_In; simpl; tauto|].
  repeat (split; [done|]). split; [|split; [|split]].
  - intros sg'. exists (cleanup (cleanup s sg).1 sg').1, (cleanup (cleanup s sg).1 sg').2.
    split; [unfold step; simpl; by rewrite Hex|].
    split; [apply list_elem_of_In; simpl; tauto | done].
  - intros r.
    exists (cleanup_resume (cleanup s sg).1 r).1, (cleanup_resume (cleanup s sg).1 r).2.
    split; [unfold step; simpl; by rewrite Hex|].
    split; [by destruct r|]. split; [by destruct r|].
    repeat (split; [done|]). intros e. unfold step. done.
  - intros cur st Hl Hcl. unfold finally_block. by rewrite Hl, Hcl.
  - repeat (split; [done|]). split; [|split].
    + intros sg'. exists (cleanup (cleanup s sg).1 sg').1.
      split; [unfold step; simpl; by rewrite Hex | done].
    + intros r. exists (cleanup_resume (cleanup s sg).1 r).1.
      split; [|done]. unfold step. simpl. rewrite Hex. by destruct r.
    + intros cur st Hl Hcl. unfold finally_block. by rewrite Hl, Hcl.
Qed.

(** SIGINT arrives while the first stream is open. *)
Lemma signal_disconnects_and_exits_witness :
  ∃ s1 a1, step st_streamingA (EvSignal SIGINT) = Some (s1, a1)
    ∧ Disconnect ∈ a1 ∧ filter is_close_call a1 = [] ∧ watches a1 = []
    ∧ streams s1 = streams st_streamingA ∧ timers s1 = timers st_streamingA
    ∧ exited s1 = false
    ∧ (∀ sg', ∃ s1' a1', step s1 (EvSignal sg') = Some (s1', a1')
                         ∧ Disconnect ∈ a1' ∧ exited s1' = false)
    ∧ (∀ r, ∃ s2 a2, step s1 (EvDisconnected r) = Some (s2, a2)
              ∧ last a2 = Some (Exit 0) ∧ filter is_close_call a2 = []
              ∧ exited s2 = true ∧ streams s2 = streams st_streamingA
              ∧ ∀ e, step s2 e = None)
    ∧ (∀ cur st, streams st_streamingA !! cur = Some st → closed st = true →
         filter is_close_call (finally_block st_streamingA (Some cur)).2 = [])
    ∧ a1 = [ Console LLog [JStr "\nReceived "; JStr (signal_name SIGINT);
                           JStr ". Forcing exit for demo simplicity, but ensuring Mongoose disconnects."];
             Disconnect ]
    ∧ main s1 = main st_streamingA ∧ closing s1 = closing st_streamingA
    ∧ lastResumeToken s1 = lastResumeToken st_streamingA
    ∧ (∀ sg', ∃ s1', step s1 (EvSignal sg')
         = Some (s1', [ Console LLog [JStr "\nReceived "; JStr (signal_name sg');
                                      JStr ". Forcing exit for demo simplicity, but ensuring Mongoose disconnects."];
                        Disconnect ])
         ∧ main s1' = main st_streamingA ∧ streams s1' = streams st_streamingA
         ∧ timers s1' = timers st_streamingA)
    ∧ (∀ r, ∃ s2, step s1 (EvDisconnected r)
         = Some (s2, disconnect_caught r ++ [Exit 0%Z])
         ∧ main s2 = main st_streamingA ∧ timers s2 = timers st_streamingA
         ∧ closing s2 = closing st_streamingA)
    ∧ (∀ cur st, streams st_streamingA !! cur = Some st → closed st = false →
         filter is_close_call (finally_block st_streamingA (Some cur)).2
         = [CloseStream cur]).
Proof.
  apply (signal_disconnects_and_exits st_streamingA SIGINT). reflexivity.
Defined.

(** C10. Every subscription the program issues carries options with a
    [resumeAfter] key exactly when the checkpoint is not null: with a null
    checkpoint the options are the empty object, and with a checkpoint
    holding the token [t] they are exactly [{ resumeAfter: t }]. *)
Theorem watch_options_follow_checkpoint s e s' a o :
  reachable s → step s e = Some (s', a) → o ∈ watches a →
  (is_Some (o !! "resumeAfter") ↔ lastResumeToken s ≠ JNull)
  ∧ (lastResumeToken s = JNull → o = ∅)
  ∧ (∀ t, lastResumeToken s = JTok t →
          o = {[ "resumeAfter" := JTok t ]}
          ∧ o !! "resumeAfter" = Some (JTok t)).
Proof.
  intros Hre H Ho. pose proof (reachable_inv _ Hre) as [_ _ Htok _].
  assert (o = setup_options (lastResumeToken s)) as ->.
  { destruct (step_watches _ _ _ _ H) as [Hw|Hw]; rewrite Hw in Ho.
    - by apply elem_of_nil in Ho.
    - by apply list_elem_of_singleton in Ho. }
  destruct Htok as [Hn|[t Ht]].
  - rewrite Hn. change (setup_options JNull) with (∅ : gmap string jsval).
    split; [|split; [done|]].
    + rewrite lookup_empty. split; [by intros [? ?] | done].
    + intros t Ht. done.
  - rewrite Ht. change (setup_options (JTok t))
      with ({[ "resumeAfter" := JTok t ]} : gmap string jsval).
    split; [|split; [done|]].
    + rewrite lookup_singleton_eq. split; [done | by eexists].
    + intros t' [= <-]. split; [done | apply lookup_singleton_eq].
Qed.

(** The timer fires with the checkpoint at A. *)
Lemma watch_options_follow_checkpoint_witness :
  (is_Some (({[ "resumeAfter" := JTok tokA ]} : gmap string jsval) !! "resumeAfter")
   ↔ lastResumeToken st_dueA ≠ JNull)
  ∧ (lastResumeToken st_dueA = JNull
     → ({[ "resumeAfter" := JTok tokA ]} : gmap string jsval) = ∅)
  ∧ (∀ t, lastResumeToken st_dueA = JTok t →
          ({[ "resumeAfter" := JTok tokA ]} : gmap string jsval)
          = {[ "resumeAfter" := JTok t ]}
          ∧ ({[ "resumeAfter" := JTok tokA ]} : gmap string jsval) !! "resumeAfter"
            = Some (JTok t)).
Proof.
  eapply (watch_options_follow_checkpoint st_dueA (EvTimer 0)).
  - exists [EvConnected; EvChange 0 chA; EvError 0 err_unreachable;
            EvCloseDone 0 None; EvTick 5000]. eexists. reflexivity.
  - reflexivity.
  - apply list_elem_of_In. simpl. left. reflexivity.
Defined.

(** * Further properties of the program *)

(** ** The checkpoint *)

Lemma step_checkpoint s e s' a :
  step s e = Some (s', a) →
  lastResumeToken s' = checkpoint_step (lastResumeToken s) e.
Proof.
  intros H. unfold checkpoint_step. step_cases H.
  - destruct (main s); try done. by injection H as <- <-.
  - destruct (main s); try done. by injection H as <- <-.
  - destruct (streams s !! sid) as [st|]; [|done].
    destruct (negb (closed st) && negb (errored st)); [|done].
    by injection H as <- <-.
  - destruct (streams s !! sid) as [st|]; [|done].
    destruct (errored st); [done|]. simpl in H. unfold on_error in H.
    destruct (is_history_lost e), (closed st); simpl in H; by injection H as <- <-.
  - destruct (streams s !! sid) as [st|]; [|done].
    destruct (closeEmitted st); [done|]. by injection H as <- <-.
  - destruct (remove_pending sid (closing s)); [|done]. by injection H as <- <-.
  - by injection H as <- <-.
  - destruct (timers s !! k); [|done]. destruct (Z.leb _ _); [|done].
    by injection H as <- <-.
  - by injection H as <- <-.
  - destruct (cleanups s); [done|]. by injection H as <- <-.
  - destruct (main s); try done. by injection H as <- <-.
  - destruct (main s); try done. by injection H as <- <-.
Qed.

(** X1. After any run of the event loop the checkpoint is what the events
    of the run dictate: the [_id] of the last change delivered, unless a
    history-lost error came after it, in which case it is null, and the
    value it had before the run if the run holds neither; no other handler
    writes [lastResumeToken]. *)
Theorem checkpoint_follows_events evs : ∀ s s' a,
  run s evs = Some (s', a) →
  lastResumeToken s' = checkpoint_after (lastResumeToken s) evs.
Proof.
  induction evs as [|e evs IH]; intros s s' a H; simpl in H.
  - by injection H as <- <-.
  - destruct (step s e) as [[s1 a1]|] eqn:Hs; [|done].
    destruct (run s1 evs) as [[s2 a2]|] eqn:Hr; [|done].
    injection H as <- <-. unfold checkpoint_after. simpl.
    rewrite <- (step_checkpoint _ _ _ _ Hs). by apply (IH s1 s2 a2).
Qed.

(** Changes, a transient error, the retry, a history loss. *)
Lemma checkpoint_follows_events_witness :
  ∃ s' a,
    run init [EvConnected; EvChange 0 chA; EvError 0 err_unreachable;
              EvCloseDone 0 None; EvTick 5000; EvTimer 0; EvChange 1 chB;
              EvError 1 err_history_lost] = Some (s', a)
    ∧ lastResumeToken s' = JNull.
Proof.
  eexists _, _. split; [reflexivity|].
  apply (checkpoint_follows_events
           [EvConnected; EvChange 0 chA; EvError 0 err_unreachable;
            EvCloseDone 0 None; EvTick 5000; EvTimer 0; EvChange 1 chB;
            EvError 1 err_history_lost] init _ _ eq_refl).
Defined.

(** X2. A checkpoint that holds a token is never discarded by anything
    but a history-lost error: over any run without such an error the
    checkpoint still holds a token afterwards. *)
Theorem checkpoint_kept_without_history_loss evs : ∀ s s' a t,
  run s evs = Some (s', a) → lastResumeToken s = JTok t →
  forallb (λ e, negb (is_history_lost_event e)) evs = true →
  ∃ t', lastResumeToken s' = JTok t'.
Proof.
  induction evs as [|e evs IH]; intros s s' a t H Ht Hn; simpl in H.
  - injection H as <- <-. eauto.
  - destruct (step s e) as [[s1 a1]|] eqn:Hs; [|done].
    destruct (run s1 evs) as [[s2 a2]|] eqn:Hr; [|done].
    injection H as <- <-. simpl in Hn. apply andb_prop in Hn as [He Hn].
    pose proof (step_checkpoint _ _ _ _ Hs) as Hc. rewrite Ht in Hc.
    destruct e; simpl in Hc, He; try (by eapply IH).
    destruct (is_history_lost e); [done|]. by eapply IH.
Qed.

(** An authorization failure and a clean close leave the token A. *)
Lemma checkpoint_kept_without_history_loss_witness :
  ∃ t', lastResumeToken st_dueA = JTok t'.
Proof.
  eapply (checkpoint_kept_without_history_loss
            [EvError 0 err_unauthorized; EvCloseDone 0 None; EvTick 5000]
            st_streamingA st_dueA _ tokA); reflexivity.
Defined.

(** X3. The checkpoint lives in memory only: whatever happens, the first
    subscription a started program issues carries the empty options
    object. *)
Theorem first_subscription_starts_fresh evs s a o :
  run init evs = Some (s, a) → first_watch a = Some o → o = ∅.
Proof.
  intros Hr Ho.
  destruct (quiet_run evs init s a eq_refl Hr) as [(Hw & _)|Hw].
  - unfold first_watch in Ho. by rewrite Hw in Ho.
  - rewrite Hw in Ho. by injection Ho as <-.
Qed.

(** Connecting, then a change: the one subscription has empty options. *)
Lemma first_subscription_starts_fresh_witness :
  ∃ s a, run init [EvConnected; EvChange 0 chA] = Some (s, a)
         ∧ ∀ o, first_watch a = Some o → o = ∅.
Proof.
  eexists _, _. split; [reflexivity|]. intros o.
  apply (first_subscription_starts_fresh [EvConnected; EvChange 0 chA] _ _ o eq_refl).
Defined.

(** ** Counting what a run does *)

Lemma count_errors_cons e evs :
  count_errors (e :: evs) = (if is_error_event e then 1 else 0) + count_errors evs.
Proof.
  unfold count_errors. rewrite filter_cons. by destruct (is_error_event e).
Qed.

Lemma closes_of_app sid a b : closes_of sid (a ++ b) = closes_of sid a + closes_of sid b.
Proof. unfold closes_of. by rewrite filter_app, length_app. Qed.

Lemma step_warns s e s' a :
  step s e = Some (s', a) → count_warn a = if is_error_event e then 1 else 0.
Proof.
  intros H. destruct (is_error_event e) eqn:He.
  - destruct e; try done.
    by destruct (error_step _ _ _ _ _ H) as (_ & _ & _ & _ & _ & Hc & _).
  - by eapply step_no_warn.
Qed.

(** X4. Over any run, [console.warn] is called exactly once for each
    ['error'] event a stream emitted, and never otherwise. *)
Theorem one_warning_per_error evs : ∀ s s' a,
  run s evs = Some (s', a) → count_warn a = count_errors evs.
Proof.
  induction evs as [|e evs IH]; intros s s' a H; simpl in H.
  - by injection H as <- <-.
  - destruct (step s e) as [[s1 a1]|] eqn:Hs; [|done].
    destruct (run s1 evs) as [[s2 a2]|] eqn:Hr; [|done].
    injection H as <- <-.
    by rewrite count_warn_app, count_errors_cons, (step_warns _ _ _ _ Hs), (IH _ _ _ Hr).
Qed.

(** Two streams fail in turn: two warnings. *)
Lemma one_warning_per_error_witness :
  ∃ s' a,
    run init [EvConnected; EvError 0 err_unreachable; EvCloseDone 0 None;
              EvTick 5000; EvTimer 0; EvError 1 err_history_lost] = Some (s', a)
    ∧ count_warn a = 2.
Proof.
  eexists _, _. split; [reflexivity|].
  apply (one_warning_per_error
           [EvConnected; EvError 0 err_unreachable; EvCloseDone 0 None;
            EvTick 5000; EvTimer 0; EvError 1 err_history_lost] init _ _ eq_refl).
Defined.

Lemma step_subscriptions s e s' a :
  step s e = Some (s', a) →
  length (streams s') = length (streams s) + length (watches a)
  ∧ length (watches a) + pending s'
    ≤ pending s + (if is_error_event e then 1 else 0).
Proof.
  intros H. unfold pending. step_cases H.
  - destruct (main s); try done. injection H as <- <-. simpl.
    rewrite length_app. simpl. lia.
  - destruct (main s); try done. injection H as <- <-. simpl. lia.
  - destruct (streams s !! sid) as [st|]; [|done].
    destruct (negb (closed st) && negb (errored st)); [|done].
    injection H as <- <-. simpl. lia.
  - destruct (streams s !! sid) as [st|]; [|done].
    destruct (errored st); [done|]. simpl in H. unfold on_error in H.
    destruct (is_history_lost e), (closed st); simpl in H; injection H as <- <-;
      simpl; rewrite length_insert, ?length_app; simpl; lia.
  - destruct (streams s !! sid) as [st|]; [|done].
    destruct (closeEmitted st); [done|]. injection H as <- <-. simpl.
    rewrite length_insert. lia.
  - destruct (remove_pending sid (closing s)) as [rest|] eqn:Hr; [|done].
    apply remove_pending_length in Hr. injection H as <- <-.
    destruct r; simpl; rewrite length_app; simpl; lia.
  - injection H as <- <-. simpl. lia.
  - destruct (timers s !! k) eqn:Hk; [|done]. destruct (Z.leb _ _); [|done].
    injection H as <- <-. simpl.
    rewrite length_app, length_delete by eauto. apply lookup_lt_Some in Hk.
    simpl. lia.
  - injection H as <- <-. simpl. lia.
  - destruct (cleanups s); [done|]. injection H as <- <-. destruct r; simpl; lia.
  - destruct (main s); try done. injection H as <- <-. destruct r; simpl; lia.
  - destruct (main s); try done. injection H as <- <-. destruct r; simpl; lia.
Qed.

Lemma run_subscriptions evs : ∀ s s' a,
  run s evs = Some (s', a) →
  length (streams s') = length (streams s) + length (watches a)
  ∧ length (watches a) + pending s' ≤ pending s + count_errors evs.
Proof.
  induction evs as [|e evs IH]; intros s s' a H; simpl in H.
  - injection H as <- <-. simpl. unfold count_errors. simpl. lia.
  - destruct (step s e) as [[s1 a1]|] eqn:Hs; [|done].
    destruct (run s1 evs) as [[s2 a2]|] eqn:Hr; [|done].
    injection H as <- <-.
    destruct (step_subscriptions _ _ _ _ Hs) as [H1 H2].
    destruct (IH _ _ _ Hr) as [H3 H4].
    rewrite watches_app, length_app, count_errors_cons. lia.
Qed.

(** X5. A started program has subscribed exactly as many times as it holds
    stream objects, and at most once more than streams have emitted
    ['error']: beyond the initial subscription, every subscription answers
    an error. *)
Theorem resubscription_only_after_error evs s a :
  run init evs = Some (s, a) →
  length (watches a) = length (streams s)
  ∧ length (watches a) ≤ 1 + count_errors evs.
Proof.
  intros H. destruct (run_subscriptions _ _ _ _ H) as [H1 H2].
  unfold pending in H2. simpl in *. lia.
Qed.

(** A clean close after the first change: still one subscription. *)
Lemma resubscription_only_after_error_witness :
  ∃ s a, run init [EvConnected; EvChange 0 chA; EvClose 0; EvTick 9000] = Some (s, a)
         ∧ length (watches a) = length (streams s)
         ∧ length (watches a)
           ≤ 1 + count_errors [EvConnected; EvChange 0 chA; EvClose 0; EvTick 9000].
Proof.
  eexists _, _. split; [reflexivity|].
  apply (resubscription_only_after_error
           [EvConnected; EvChange 0 chA; EvClose 0; EvTick 9000] _ _ eq_refl).
Defined.

(** ** Closing streams *)

Lemma may_still_fail_le_1 l sid : may_still_fail l sid ≤ 1.
Proof. unfold may_still_fail. destruct (l !! sid) as [st|]; [destruct (errored st)|]; lia. Qed.

Lemma may_still_fail_snoc l st sid :
  may_still_fail (l ++ [st]) sid ≤ may_still_fail l sid.
Proof.
  destruct (decide (sid < length l)) as [Hlt|Hge].
  - unfold may_still_fail. by rewrite lookup_app_l.
  - pose proof (may_still_fail_le_1 (l ++ [st]) sid).
    unfold may_still_fail at 2. rewrite lookup_ge_None_2; lia.
Qed.

Lemma may_still_fail_insert l i st st' sid :
  l !! i = Some st →
  may_still_fail (<[i := st']> l) sid
  = if decide (i = sid) then (if errored st' then 0 else 1) else may_still_fail l sid.
Proof.
  intros Hl. unfold may_still_fail. destruct (decide (i = sid)) as [->|Hne].
  - rewrite list_lookup_insert_eq; [done|]. by eapply lookup_lt_Some.
  - by rewrite list_lookup_insert_ne.
Qed.

Lemma closes_of_close sid0 sid pre :
  filter is_close_call pre = [] →
  closes_of sid (pre ++ [CloseStream sid0]) = if decide (sid0 = sid) then 1 else 0.
Proof.
  intros Hpre. rewrite closes_of_app.
  assert (closes_of sid pre = 0) as ->.
  { unfold closes_of. induction pre as [|x pre IH]; [done|].
    rewrite filter_cons in Hpre. rewrite filter_cons.
    destruct x; simpl in *; try done; by apply IH. }
  unfold closes_of. rewrite filter_cons. simpl.
  destruct (decide (sid0 = sid)) as [->|Hne].
  - by rewrite Nat.eqb_refl.
  - apply Nat.eqb_neq in Hne. by rewrite Hne.
Qed.

Lemma step_closes sid s e s' a :
  (∀ c, main s ≠ MainClosing c) → step s e = Some (s', a) →
  closes_of sid a + may_still_fail (streams s') sid ≤ may_still_fail (streams s) sid
  ∧ (∀ c, main s' ≠ MainClosing c).
Proof.
  intros Hm H. step_cases H.
  - destruct (main s); try done. injection H as <- <-. simpl. split; [|done].
    apply may_still_fail_snoc.
  - destruct (main s); try done. by injection H as <- <-.
  - destruct (streams s !! sid0) as [st|]; [|done].
    destruct (negb (closed st) && negb (errored st)); [|done].
    by injection H as <- <-.
  - destruct (streams s !! sid0) as [st|] eqn:Hl; [|done].
    destruct (errored st) eqn:Herr; [done|]. simpl in H. unfold on_error in H.
    assert (may_still_fail (streams s) sid0 = 1) as Hone
      by (unfold may_still_fail; by rewrite Hl, Herr).
    destruct (closed st) eqn:Hcl; simpl in H.
    + assert (closes_of sid a = 0 ∧ streams s'
              = <[sid0 := MkStream true true (closeEmitted st)]> (streams s)
              ∧ main s' = main s) as (-> & -> & ->)
        by (destruct (is_history_lost e); simpl in H; by injection H as <- <-).
      split; [|done]. rewrite (may_still_fail_insert _ _ st) by done. simpl.
      destruct (decide (sid0 = sid)) as [<-|]; lia.
    + assert (closes_of sid a = (if decide (sid0 = sid) then 1 else 0) ∧ streams s'
              = <[sid0 := MkStream true true (closeEmitted st)]> (streams s)
              ∧ main s' = main s) as (-> & -> & ->).
      { destruct (is_history_lost e); simpl in H; injection H as <- <-;
          (split; [|done]);
          match goal with |- closes_of _ ?l = _ =>
            change l with
              (firstn 4 l ++ [CloseStream sid0])
          end; by apply closes_of_close. }
      split; [|done]. rewrite (may_still_fail_insert _ _ st) by done. simpl.
      destruct (decide (sid0 = sid)) as [<-|]; lia.
  - destruct (streams s !! sid0) as [st|] eqn:Hl; [|done].
    destruct (closeEmitted st); [done|]. injection H as <- <-. simpl.
    split; [|done]. rewrite (may_still_fail_insert _ _ st) by done. simpl.
    destruct (decide (sid0 = sid)) as [<-|]; [|lia].
    unfold may_still_fail. rewrite Hl. lia.
  - destruct (remove_pending sid0 (closing s)); [|done].
    injection H as <- <-. by destruct r.
  - by injection H as <- <-.
  - destruct (timers s !! k); [|done]. destruct (Z.leb _ _); [|done].
    injection H as <- <-. simpl. split; [|done]. apply may_still_fail_snoc.
  - by injection H as <- <-.
  - destruct (cleanups s); [done|]. injection H as <- <-. by destruct r.
  - destruct (main s) eqn:Hmain; try done. by destruct (Hm cur).
  - destruct (main s); try done. injection H as <- <-. by destruct r.
Qed.

Lemma run_closes sid evs : ∀ s s' a,
  (∀ c, main s ≠ MainClosing c) → run s evs = Some (s', a) →
  closes_of sid a + may_still_fail (streams s') sid ≤ may_still_fail (streams s) sid.
Proof.
  induction evs as [|e evs IH]; intros s s' a Hm H; simpl in H.
  - by injection H as <- <-.
  - destruct (step s e) as [[s1 a1]|] eqn:Hs; [|done].
    destruct (run s1 evs) as [[s2 a2]|] eqn:Hr; [|done].
    injection H as <- <-.
    destruct (step_closes sid _ _ _ _ Hm Hs) as [H1 Hm1].
    pose proof (IH _ _ _ Hm1 Hr). rewrite closes_of_app. lia.
Qed.

(** X6. Over any run of a started program, [close()] is called at most
    once on each stream, and a stream on which it was called has emitted
    ['error']: the program closes a stream only in its error handler. *)
Theorem stream_closed_at_most_once evs s a sid :
  run init evs = Some (s, a) →
  closes_of sid a ≤ 1
  ∧ (closes_of sid a = 1 →
     ∃ st, streams s !! sid = Some st ∧ errored st = true ∧ closed st = true).
Proof.
  intros H.
  assert (∀ c, main init ≠ MainClosing c) as Hm by done.
  pose proof (run_closes sid _ _ _ _ Hm H) as Hc.
  pose proof (may_still_fail_le_1 (streams init) sid) as Hle.
  split; [lia|]. intros Hone.
  assert (may_still_fail (streams s) sid = 0) as Hzero by lia.
  unfold may_still_fail in Hzero.
  destruct (streams s !! sid) as [st|] eqn:Hl; [|done].
  destruct (errored st) eqn:Herr; [|done].
  exists st. repeat split; try done.
  assert (reachable s) as Hre by (by eexists _, _).
  pose proof (reachable_inv _ Hre) as [_ Hs _ _].
  by apply (Forall_lookup_1 _ _ _ _ Hs Hl).
Qed.

(** The first stream fails and is closed; the second closes by itself. *)
Lemma stream_closed_at_most_once_witness :
  ∃ s a,
    run init [EvConnected; EvError 0 err_unreachable; EvCloseDone 0 None;
              EvTick 5000; EvTimer 0; EvClose 1] = Some (s, a)
    ∧ closes_of 0 a ≤ 1
    ∧ (closes_of 0 a = 1 →
       ∃ st, streams s !! 0 = Some st ∧ errored st = true ∧ closed st = true).
Proof.
  eexists _, _. split; [reflexivity|].
  apply (stream_closed_at_most_once
           [EvConnected; EvError 0 err_unreachable; EvCloseDone 0 None;
            EvTick 5000; EvTimer 0; EvClose 1] _ _ 0 eq_refl).
Defined.

(** ** Leaving the process *)

Lemma step_exit s e s' a :
  step s e = Some (s', a) →
  (is_signal_event e = false → cleanups s' ≤ cleanups s)
  ∧ ((exited s' = false ∧ filter is_exit a = [])
     ∨ (exited s' = true ∧ filter is_exit a = [Exit 0%Z]
        ∧ last a = Some (Exit 0%Z) ∧ 0 < cleanups s)).
Proof.
  intros H. step_cases H.
  - destruct (main s); try done. injection H as <- <-. split; [done|]. by left.
  - destruct (main s); try done. injection H as <- <-. split; [done|]. by left.
  - destruct (streams s !! sid) as [st|]; [|done].
    destruct (negb (closed st) && negb (errored st)); [|done].
    injection H as <- <-. split; [done|]. by left.
  - destruct (streams s !! sid) as [st|]; [|done].
    destruct (errored st); [done|]. simpl in H. unfold on_error in H.
    destruct (is_history_lost e), (closed st); simpl in H; injection H as <- <-;
      (split; [done|]); by left.
  - destruct (streams s !! sid) as [st|]; [|done].
    destruct (closeEmitted st); [done|]. injection H as <- <-. split; [done|]. by left.
  - destruct (remove_pending sid (closing s)); [|done].
    injection H as <- <-. split; [done|]. left. by destruct r.
  - injection H as <- <-. split; [done|]. by left.
  - destruct (timers s !! k); [|done]. destruct (Z.leb _ _); [|done].
    injection H as <- <-. split; [done|]. by left.
  - injection H as <- <-. split; [done|]. by left.
  - destruct (cleanups s) eqn:Hc; [done|]. injection H as <- <-.
    split; [simpl; lia|]. right. destruct r; simpl; repeat split; try done; lia.
  - destruct (main s); try done. injection H as <- <-. split; [done|].
    left. by destruct r.
  - destruct (main s); try done. injection H as <- <-. split; [done|].
    left. by destruct r.
Qed.

Lemma run_exit evs : ∀ s s' a,
  run s evs = Some (s', a) →
  (exited s' = false → filter is_exit a = [])
  ∧ (exited s' = true → exited s = false →
     filter is_exit a = [Exit 0%Z] ∧ last a = Some (Exit 0%Z)
     ∧ (cleanups s = 0 → ∃ sg, EvSignal sg ∈ evs)).
Proof.
  induction evs as [|e evs IH]; intros s s' a H; simpl in H.
  - injection H as <- <-. split; [done|]. intros H1 H2. congruence.
  - destruct (step s e) as [[s1 a1]|] eqn:Hs; [|done].
    destruct (run s1 evs) as [[s2 a2]|] eqn:Hr; [|done].
    injection H as <- <-.
    destruct (step_exit _ _ _ _ Hs) as [Hcl [[Hex1 Hf1]|(Hex1 & Hf1 & Hl1 & Hpos)]].
    + destruct (IH _ _ _ Hr) as [IH1 IH2]. rewrite filter_app, Hf1. simpl.
      split; [done|]. intros Hex' Hex.
      destruct (IH2 Hex' Hex1) as (Hf2 & Hl2 & Hsig).
      split; [done|]. split.
      * rewrite last_app, Hl2. done.
      * intros Hc0. destruct (is_signal_event e) eqn:He.
        -- destruct e; try done. exists sg. apply list_elem_of_here.
        -- specialize (Hcl eq_refl).
           destruct Hsig as [sg Hin]; [lia|]. exists sg. by apply list_elem_of_further.
    + assert (s2 = s1 ∧ a2 = []) as [-> ->].
      { destruct evs as [|e2 evs]; simpl in Hr.
        - by injection Hr as <- <-.
        - unfold step in Hr. by rewrite Hex1 in Hr. }
      rewrite app_nil_r. split; [congruence|]. intros _ _.
      repeat split; try done. intros Hc0. lia.
Qed.

(** X7. A started program leaves only through [cleanup]: over any run,
    [process.exit] is called at most once, with status 0, as the last
    action of the run, and only if a termination signal was received; a
    run in which the program has not exited holds no call of it. *)
Theorem exit_only_after_signal evs s a :
  run init evs = Some (s, a) →
  (exited s = false → filter is_exit a = [])
  ∧ (exited s = true →
     filter is_exit a = [Exit 0%Z] ∧ last a = Some (Exit 0%Z)
     ∧ ∃ sg, EvSignal sg ∈ evs).
Proof.
  intros H. destruct (run_exit _ _ _ _ H) as [H1 H2]. split; [done|].
  intros Hex. destruct (H2 Hex eq_refl) as (Hf & Hl & Hsig).
  repeat split; try done. by apply Hsig.
Qed.

(** SIGTERM while streaming, then the disconnect is rejected. *)
Lemma exit_only_after_signal_witness :
  ∃ s a,
    run init [EvConnected; EvChange 0 chA; EvSignal SIGTERM;
              EvDisconnected (Some err_close)] = Some (s, a)
    ∧ (exited s = false → filter is_exit a = [])
    ∧ (exited s = true →
       filter is_exit a = [Exit 0%Z] ∧ last a = Some (Exit 0%Z)
       ∧ ∃ sg, EvSignal sg ∈ [EvConnected; EvChange 0 chA; EvSignal SIGTERM;
                               EvDisconnected (Some err_close)]).
Proof.
  eexists _, _. split; [reflexivity|].
  apply (exit_only_after_signal
           [EvConnected; EvChange 0 chA; EvSignal SIGTERM;
            EvDisconnected (Some err_close)] _ _ eq_refl).
Defined.

(** ** When the connection cannot be established *)

Lemma step_never_connected s e s' a :
  never_connected s → step s e = Some (s', a) →
  never_connected s' ∧ watches a = [] ∧ filter is_close_call a = []
  ∧ filter is_timeout a = [].
Proof.
  intros (Hst & Htm & Hcl & Htok & Hm) H. unfold never_connected. step_cases H.
  - destruct Hm as [Hm|Hm]; rewrite Hm in H; done.
  - destruct Hm as [Hm|Hm]; rewrite Hm in H; done.
  - by rewrite Hst in H.
  - by rewrite Hst in H.
  - by rewrite Hst in H.
  - by rewrite Hcl in H.
  - by injection H as <- <-.
  - by rewrite Htm in H.
  - by injection H as <- <-.
  - destruct (cleanups s); [done|]. injection H as <- <-. by destruct r.
  - destruct Hm as [Hm|Hm]; rewrite Hm in H; done.
  - destruct (main s); try done. injection H as <- <-. simpl.
    destruct r; repeat split; try done; by right.
Qed.

Lemma run_never_connected evs : ∀ s s' a,
  never_connected s → run s evs = Some (s', a) →
  never_connected s' ∧ watches a = [] ∧ filter is_close_call a = []
  ∧ filter is_timeout a = [].
Proof.
  induction evs as [|e evs IH]; intros s s' a Hn H; simpl in H.
  - by injection H as <- <-.
  - destruct (step s e) as [[s1 a1]|] eqn:Hs; [|done].
    destruct (run s1 evs) as [[s2 a2]|] eqn:Hr; [|done].
    injection H as <- <-.
    destruct (step_never_connected _ _ _ _ Hn Hs) as (Hn1 & Hw1 & Hc1 & Ht1).
    destruct (IH _ _ _ Hn1 Hr) as (Hn2 & Hw2 & Hc2 & Ht2).
    by rewrite watches_app, !filter_app, Hw1, Hw2, Hc1, Hc2, Ht1, Ht2.
Qed.

(** X8. When [mongoose.connect] is rejected, the rejection is printed with
    [console.error], the [finally] block calls [mongoose.disconnect()]
    without closing any stream, and from then on, whatever happens, the
    program never subscribes, never sets a retry timer and never calls
    [close()]: it has no stream and its checkpoint stays null. *)
Theorem connect_failure_never_subscribes err evs s a :
  run init (EvConnectFailed err :: evs) = Some (s, a) →
  Console LError [JStr "An error occurred during the Mongoose resumable demo:";
                  JErr err] ∈ a
  ∧ Disconnect ∈ a
  ∧ watches a = [] ∧ filter is_timeout a = [] ∧ filter is_close_call a = []
  ∧ streams s = [] ∧ lastResumeToken s = JNull.
Proof.
  intros H. simpl in H.
  destruct (run _ evs) as [[s2 a2]|] eqn:Hr; [|done]. injection H as <- <-.
  assert (never_connected (set_main MainDisconnecting init)) as Hn
    by (unfold never_connected; simpl; repeat split; try done; by left).
  destruct (run_never_connected _ _ _ _ Hn Hr) as ((Hst & _ & _ & Htok & _) & Hw & Hc & Ht).
  split; [apply list_elem_of_In; simpl; tauto|].
  split; [apply list_elem_of_In; simpl; tauto|].
  change (watches ([Console LError
                      [JStr "An error occurred during the Mongoose resumable demo:";
                       JErr err]] ++ (finally_block init None).2 ++ a2) = []
          ∧ filter is_timeout
              ([Console LError
                  [JStr "An error occurred during the Mongoose resumable demo:";
                   JErr err]] ++ (finally_block init None).2 ++ a2) = []
          ∧ filter is_close_call
              ([Console LError
                  [JStr "An error occurred during the Mongoose resumable demo:";
                   JErr err]] ++ (finally_block init None).2 ++ a2) = []
          ∧ streams s2 = [] ∧ lastResumeToken s2 = JNull).
  by rewrite !watches_app, !filter_app, Hw, Hc, Ht.
Qed.

(** The connection is refused; later a signal stops the program. *)
Lemma connect_failure_never_subscribes_witness :
  ∃ s a,
    run init (EvConnectFailed err_unreachable
              :: [EvMainDisconnected None; EvTick 5000; EvSignal SIGINT;
                  EvDisconnected None]) = Some (s, a)
    ∧ Console LError [JStr "An error occurred during the Mongoose resumable demo:";
                      JErr err_unreachable] ∈ a
    ∧ Disconnect ∈ a
    ∧ watches a = [] ∧ filter is_timeout a = [] ∧ filter is_close_call a = []
    ∧ streams s = [] ∧ lastResumeToken s = JNull.
Proof.
  eexists _, _. split; [reflexivity|].
  apply (connect_failure_never_subscribes err_unreachable
           [EvMainDisconnected None; EvTick 5000; EvSignal SIGINT;
            EvDisconnected None] _ _ eq_refl).
Defined.

(** ** The finally block *)

(** X9. The [finally] block reaches [mongoose.disconnect()] for every
    value of [currentChangeStream].  If the variable holds a stream whose
    [closed] is false, the block prints two lines and calls [close()] on
    that stream, which is closed from then on, and awaits it; when that
    [close()] settles, a rejection is printed with [console.error] and,
    resolved or rejected, the block prints a line and disconnects.  If the
    variable is null or holds a closed stream, the block calls no
    [close()]: it prints two lines and disconnects at once. *)
Theorem finally_block_always_disconnects s cur :
  exited s = false →
  (∀ sid st, cur = Some sid → streams s !! sid = Some st → closed st = false →
     (finally_block s cur).2
     = [ Console LLog [JStr "\nInitiating shutdown process..."];
         Console LLog [JStr "Closing active change stream..."];
         CloseStream sid ]
     ∧ main (finally_block s cur).1 = MainClosing sid
     ∧ streams (finally_block s cur).1 !! sid
       = Some (MkStream true (errored st) (closeEmitted st))
     ∧ ∀ r, ∃ s2,
         step (finally_block s cur).1 (EvMainCloseDone r)
         = Some (s2, final_close_caught r
                     ++ [ Console LLog [JStr "Closing Mongoose connection..."];
                          Disconnect ])
         ∧ main s2 = MainDisconnecting
         ∧ streams s2 = streams (finally_block s cur).1)
  ∧ (cur = None
     ∨ (∃ sid st, cur = Some sid ∧ streams s !! sid = Some st ∧ closed st = true) →
     (finally_block s cur).2
     = [ Console LLog [JStr "\nInitiating shutdown process..."];
         Console LLog [JStr "Closing Mongoose connection..."];
         Disconnect ]
     ∧ main (finally_block s cur).1 = MainDisconnecting
     ∧ streams (finally_block s cur).1 = streams s).
Proof.
  intros Hex. split.
  - intros sid st -> Hl Hcl. unfold finally_block. rewrite Hl, Hcl. simpl.
    split; [done|]. split; [done|]. split.
    + apply list_lookup_insert_eq. by eapply lookup_lt_Some.
    + intros r. unfold step. simpl. rewrite Hex.
      destruct r; eexists; by split.
  - intros [->|(sid & st & -> & Hl & Hcl)]; unfold finally_block.
    + done.
    + by rewrite Hl, Hcl.
Qed.

(** The block run with the open first stream in [currentChangeStream]. *)
Lemma finally_block_always_disconnects_witness :
  (∀ sid st, Some 0 = Some sid → streams st_streamingA !! sid = Some st →
     closed st = false →
     (finally_block st_streamingA (Some 0)).2
     = [ Console LLog [JStr "\nInitiating shutdown process..."];
         Console LLog [JStr "Closing active change stream..."];
         CloseStream sid ]
     ∧ main (finally_block st_streamingA (Some 0)).1 = MainClosing sid
     ∧ streams (finally_block st_streamingA (Some 0)).1 !! sid
       = Some (MkStream true (errored st) (closeEmitted st))
     ∧ ∀ r, ∃ s2,
         step (finally_block st_streamingA (Some 0)).1 (EvMainCloseDone r)
         = Some (s2, final_close_caught r
                     ++ [ Console LLog [JStr "Closing Mongoose connection..."];
                          Disconnect ])
         ∧ main s2 = MainDisconnecting
         ∧ streams s2 = streams (finally_block st_streamingA (Some 0)).1)
  ∧ (Some 0 = None
     ∨ (∃ sid st, Some 0 = Some sid ∧ streams st_streamingA !! sid = Some st
                  ∧ closed st = true) →
     (finally_block st_streamingA (Some 0)).2
     = [ Console LLog [JStr "\nInitiating shutdown process..."];
         Console LLog [JStr "Closing Mongoose connection..."];
         Disconnect ]
     ∧ main (finally_block st_streamingA (Some 0)).1 = MainDisconnecting
     ∧ streams (finally_block st_streamingA (Some 0)).1 = streams st_streamingA).
Proof.
  apply (finally_block_always_disconnects st_streamingA (Some 0)). reflexivity.
Defined.

(** ** A close that fails *)

Lemma close_settles s sid r :
  exited s = false → closing s = [sid] →
  step s (EvCloseDone sid r) = Some (on_error_resume (set_closing [] s) r).
Proof.
  intros Hex Hc. unfold step. rewrite Hex, Hc. simpl. by rewrite Nat.eqb_refl.
Qed.

Lemma tick_timer_sets_no_timer s d k s' a :
  run s [EvTick d; EvTimer k] = Some (s', a) → filter is_timeout a = [].
Proof.
  intros H. simpl in H.
  destruct (step s (EvTick d)) as [[s1 a1]|] eqn:H1; [|done].
  destruct (step s1 (EvTimer k)) as [[s2 a2]|] eqn:H2; [|done].
  injection H as <- <-.
  unfold step in H1. destruct (exited s); [done|]. injection H1 as <- <-.
  unfold step in H2. simpl in H2. destruct (exited s); [done|].
  destruct (timers s !! k); [|done]. destruct (Z.leb _ _); [|done].
  by injection H2 as <- <-.
Qed.

(** X10. A rejected [close()] does not stop the recovery.  When the error
    handler had to close the failed stream, then whether that [close()]
    resolves or is rejected, the retry timer is set, and after five seconds
    the program subscribes again from the checkpoint the handler left, in
    the same state either way; a rejection is only printed with
    [console.error]. *)
Theorem rejected_close_still_retries s sid st e s1 a1 :
  reachable s → streams s !! sid = Some st → closed st = false →
  step s (EvError sid e) = Some (s1, a1) →
  ∃ s2, ∀ r, ∃ a2,
    run s1 [EvCloseDone sid r; EvTick 5000; EvTimer 0] = Some (s2, a2)
    ∧ watches a2 = [setup_options (lastResumeToken s1)]
    ∧ filter is_timeout a2 = [SetTimeout RETRY_DELAY]
    ∧ (∀ closeErr, r = Some closeErr →
         Console LError [JStr "Error closing errored stream:"; JErr closeErr] ∈ a2).
Proof.
  intros Hre Hl Hcl H. pose proof (reachable_inv _ Hre) as Hi.
  destruct (error_step _ _ _ _ _ H)
    as (st0 & Hl0 & Herr & Hex1 & _ & _ & _ & Hlc & _ & _ & Hsched).
  rewrite Hl in Hl0. injection Hl0 as <-. rewrite Hcl in Hsched.
  destruct Hsched as [Hc1 _].
  destruct (live_alone s sid st Hi Hl Herr) as (Htm & Hc & Hm & Hone).
  rewrite Hc in Hc1. simpl in Hc1.
  assert (timers s1 = [] ∧ main s1 ≠ MainConnecting) as [Htm1 Hm1].
  { unfold step in H. destruct (exited s); [done|]. rewrite Hl, Herr in H.
    simpl in H. unfold on_error in H. rewrite Hcl in H.
    destruct (is_history_lost e); simpl in H; by injection H as <- <-. }
  set (sw := (schedule_retry (set_closing [] s1)).1).
  assert (exited sw = false) as Hexw by done.
  assert (waiting (now sw + RETRY_DELAY)%Z sw) as Hw.
  { unfold waiting, sw. simpl. rewrite Htm1. repeat split; try done. lia. }
  destruct (waiting_fires sw Hexw Hw) as (s2 & a2 & Hr & Hw2).
  exists s2. intros r.
  exists ((on_error_resume (set_closing [] s1) r).2 ++ a2).
  split; [|split; [|split]].
  - change (run s1 ([EvCloseDone sid r] ++ [EvTick 5000; EvTimer 0])
            = Some (s2, (on_error_resume (set_closing [] s1) r).2 ++ a2)).
    eapply run_app; [|exact Hr]. simpl.
    rewrite (close_settles s1 sid r Hex1 Hc1). unfold on_error_resume. simpl.
    by rewrite app_nil_r.
  - rewrite watches_app, Hw2. by destruct r.
  - rewrite filter_app.
    rewrite (tick_timer_sets_no_timer _ _ _ _ _ Hr). by destruct r.
  - intros closeErr ->. apply list_elem_of_In. simpl. tauto.
Qed.

(** The host is unreachable and closing the failed stream is rejected. *)
Lemma rejected_close_still_retries_witness :
  ∃ s2, ∀ r, ∃ a2,
    run st_closingA [EvCloseDone 0 r; EvTick 5000; EvTimer 0] = Some (s2, a2)
    ∧ watches a2 = [setup_options (lastResumeToken st_closingA)]
    ∧ filter is_timeout a2 = [SetTimeout RETRY_DELAY]
    ∧ (∀ closeErr, r = Some closeErr →
         Console LError [JStr "Error closing errored stream:"; JErr closeErr] ∈ a2).
Proof.
  eapply (rejected_close_still_retries st_streamingA 0 fresh_stream err_unreachable).
  - exists [EvConnected; EvChange 0 chA]. eexists. reflexivity.
  - reflexivity.
  - reflexivity.
  - reflexivity.
Defined.

(** ** Pending retries *)

Lemma step_timers_near s e s' a :
  timers_near s → step s e = Some (s', a) → timers_near s'.
Proof.
  unfold timers_near. intros Hn H. step_cases H.
  - destruct (main s); try done. by injection H as <- <-.
  - destruct (main s); try done. by injection H as <- <-.
  - destruct (streams s !! sid) as [st|]; [|done].
    destruct (negb (closed st) && negb (errored st)); [|done].
    by injection H as <- <-.
  - destruct (streams s !! sid) as [st|]; [|done].
    destruct (errored st); [done|]. simpl in H. unfold on_error in H.
    destruct (is_history_lost e), (closed st); simpl in H; injection H as <- <-;
      simpl; try done; (apply Forall_app; split; [done|]);
      apply Forall_singleton; lia.
  - destruct (streams s !! sid) as [st|]; [|done].
    destruct (closeEmitted st); [done|]. by injection H as <- <-.
  - destruct (remove_pending sid (closing s)); [|done]. injection H as <- <-.
    simpl. apply Forall_app; split; [done|]. apply Forall_singleton. lia.
  - injection H as <- <-. simpl. eapply Forall_impl; [exact Hn|].
    intros due Hd. simpl in Hd. lia.
  - destruct (timers s !! k); [|done]. destruct (Z.leb _ _); [|done].
    injection H as <- <-. simpl. by apply Forall_delete.
  - by injection H as <- <-.
  - destruct (cleanups s); [done|]. by injection H as <- <-.
  - destruct (main s); try done. by injection H as <- <-.
  - destruct (main s); try done. by injection H as <- <-.
Qed.

Lemma run_timers_near evs : ∀ s s' a,
  timers_near s → run s evs = Some (s', a) → timers_near s'.
Proof.
  induction evs as [|e evs IH]; intros s s' a Hn H; simpl in H.
  - by injection H as <- <-.
  - destruct (step s e) as [[s1 a1]|] eqn:Hs; [|done].
    destruct (run s1 evs) as [[s2 a2]|] eqn:Hr; [|done].
    injection H as <- <-. eapply IH; [|done]. by eapply step_timers_near.
Qed.

(** X11. The retries never pile up and never back off: in every reachable
    state at most one retry is under way, either a timer or an error
    handler awaiting its close, never both; none is under way while a
    stream is open; and a pending timer is due no later than 5000 ms from
    the current time. *)
Theorem at_most_one_retry_pending s :
  reachable s →
  length (timers s) + length (closing s) ≤ 1
  ∧ (open_count (streams s) = 1 → timers s = [] ∧ closing s = [])
  ∧ ∀ due, due ∈ timers s → (due ≤ now s + RETRY_DELAY)%Z.
Proof.
  intros Hre. pose proof (reachable_inv _ Hre) as [Hp Hs _ _].
  pose proof (open_le_live _ Hs) as Hol.
  unfold potential in Hp. split; [lia|]. split.
  { intros Ho. destruct (timers s); [|simpl in Hp; lia].
    destruct (closing s); [done|simpl in Hp; lia]. }
  destruct Hre as (evs & acts & Hr).
  assert (timers_near init) as Hn by constructor.
  pose proof (run_timers_near _ _ _ _ Hn Hr) as Hn'.
  intros due Hin. unfold timers_near in Hn'.
  by apply (proj1 (Forall_forall _ _) Hn' due).
Qed.

(** Five seconds into the wait, the one timer is due now. *)
Lemma at_most_one_retry_pending_witness :
  length (timers st_dueA) + length (closing st_dueA) ≤ 1
  ∧ (open_count (streams st_dueA) = 1 → timers st_dueA = [] ∧ closing st_dueA = [])
  ∧ ∀ due, due ∈ timers st_dueA → (due ≤ now st_dueA + RETRY_DELAY)%Z.
Proof.
  apply (at_most_one_retry_pending st_dueA).
  exists [EvConnected; EvChange 0 chA; EvError 0 err_unreachable;
          EvCloseDone 0 None; EvTick 5000]. eexists. reflexivity.
Defined.

(** ** Delivering changes leaves the rest alone *)

(** X12. Delivering change events does nothing but print and move the
    checkpoint: when a stream that is neither closed nor failed delivers
    the events [cs] followed by [c], the actions of the run are exactly the
    five printed lines of each event, in delivery order, and no
    subscription, [close()], timer or disconnect; the streams, the timers
    and the suspended error handlers are as before, the program has not
    exited, and the checkpoint is the [_id] of [c].  The run of the
    handler for [c] alone prints the five lines of [c]. *)
Theorem change_handler_always_advances s sid st cs c :
  exited s = false → streams s !! sid = Some st →
  closed st = false → errored st = false →
  (∃ s', run s (map (EvChange sid) (cs ++ [c]))
         = Some (s', flat_map change_log (cs ++ [c]))
         ∧ lastResumeToken s' = JTok (_id c)
         ∧ streams s' = streams s ∧ timers s' = timers s
         ∧ closing s' = closing s ∧ exited s' = false)
  ∧ (∃ s1, step s (EvChange sid c) = Some (s1, change_log c)
           ∧ lastResumeToken s1 = JTok (_id c)).
Proof.
  intros Hex Hl Hcl Herr. split.
  - destruct (change_run (cs ++ [c]) s sid st Hex Hl Hcl Herr)
      as (s' & Hr & Hs & Hx & Ht & Hc & Htok).
    exists s'. rewrite Htok, last_snoc. done.
  - unfold step. rewrite Hex, Hl, Hcl, Herr. simpl. eauto.
Qed.

(** The first stream delivers A, B and then C. *)
Lemma change_handler_always_advances_witness :
  (∃ s', run st_streaming0 (map (EvChange 0) ([chA; chB] ++ [chC]))
         = Some (s', flat_map change_log ([chA; chB] ++ [chC]))
         ∧ lastResumeToken s' = JTok (_id chC)
         ∧ streams s' = streams st_streaming0 ∧ timers s' = timers st_streaming0
         ∧ closing s' = closing st_streaming0 ∧ exited s' = false)
  ∧ (∃ s1, step st_streaming0 (EvChange 0 chC) = Some (s1, change_log chC)
           ∧ lastResumeToken s1 = JTok (_id chC)).
Proof.
  apply (change_handler_always_advances st_streaming0 0 fresh_stream [chA; chB] chC);
    reflexivity.
Defined.
